(** * Obelisk client codec (libbitcoin-client, [src/proxy.cpp])

    A shallow embedding of the request encoders, the response decoders,
    the compact-history reconciliation and the stealth expansion of
    [proxy.cpp], with the properties the specification states about them. *)

From Stdlib Require Import NArith Lia.
From Stdlib.Strings Require Byte.
From stdpp Require Import base list strings.

Local Open Scope N_scope.

(** ** Bytes, hashes and integer constants *)

Abbreviation byte := Byte.byte.

#[global] Instance byte_eq_dec : EqDecision byte := Byte.byte_eq_dec.

(** [data_chunk]: a byte vector. *)
Definition data_chunk := list byte.

(** [hash_digest] is a 32-byte array and [short_hash] a 20-byte array. *)
Definition hash_digest := list byte.
Definition short_hash := list byte.

Definition hash_size : nat := 32.
Definition short_hash_size : nat := 20.

Definition null_hash : hash_digest := replicate hash_size Byte.x00.

Definition max_uint8 : N := 255.
Definition max_uint32 : N := 4294967295.

(** ** Chain types used by the history decoders *)

Module point_kind.
(** [static_cast<point_kind>(byte)] can produce a value that is neither
    enumerator; [unnamed] stands for those. *)
Inductive t := output | spend | unnamed (raw : N).

#[global] Instance eq_dec : EqDecision t.
Proof. solve_decision. Defined.
End point_kind.

Module point.
Record t := mk { hash : hash_digest; index : N }.

#[global] Instance eq_dec : EqDecision t.
Proof. solve_decision. Defined.
End point.

Module history_compact.
(** [value] and [previous_checksum] share storage (a union): an output
    row reads it as [value], a spend row as [previous_checksum]. *)
Record t := mk {
  kind : point_kind.t;
  point : point.t;
  height : N;
  value : N
}.

Definition previous_checksum (row : t) : N := value row.
End history_compact.

Module history.
Record t := mk {
  output : point.t;
  output_height : N;
  value : N;
  spend : point.t;
  spend_height : N
}.

#[global] Instance eq_dec : EqDecision t.
Proof. solve_decision. Defined.
End history.

(** ** History reconciliation: [proxy::expand(const history_compact::list&)] *)

Section HistoryExpand.
(** [point::checksum()] belongs to the bitcoin library; the reconciliation
    only uses it as a function from points to 64-bit values. *)
Variable checksum : point.t -> N.

(** The row built for an output in the first loop: sentinel spend, own
    checksum parked in [spend_height]. *)
Definition unspent_row (output : history_compact.t) : history.t :=
  {| history.output := history_compact.point output;
     history.output_height := history_compact.height output;
     history.value := history_compact.value output;
     history.spend := point.mk null_hash max_uint32;
     history.spend_height := checksum (history_compact.point output) |}.

(** First loop: [result.emplace_back(row)] for every output row. *)
Definition collect_outputs (compact : list history_compact.t)
  : list history.t :=
  fold_left
    (fun result output =>
       if decide (history_compact.kind output = point_kind.output)
       then result ++ [unspent_row output]
       else result)
    compact [].

(** The condition of the inner [if] of the second loop. *)
Definition spend_matches (spend : history_compact.t) (row : history.t)
  : bool :=
  (history.spend_height row =? history_compact.previous_checksum spend)
  && bool_decide (point.hash (history.spend row) = null_hash).

(** The two assignments made on a match. *)
Definition set_spend (spend : history_compact.t) (row : history.t)
  : history.t :=
  {| history.output := history.output row;
     history.output_height := history.output_height row;
     history.value := history.value row;
     history.spend := history_compact.point spend;
     history.spend_height := history_compact.height spend |}.

(** Inner loop [for (auto& row: result)] with its [break].  The second
    component is the condition of [BITCOIN_ASSERT(row.value == spend.value)]
    at the matched row ([true] when the loop ends without a match, where
    no assertion is evaluated). *)
Fixpoint scan_rows (spend : history_compact.t) (result : list history.t)
  : list history.t * bool :=
  match result with
  | [] => ([], true)
  | row :: rest =>
      if spend_matches spend row
      then (set_spend spend row :: rest,
            history.value row =? history_compact.value spend)
      else let '(rest', ok) := scan_rows spend rest in (row :: rest', ok)
  end.

(** Second loop over the compact rows, threading the result list and the
    conjunction of the assertions evaluated so far. *)
Definition apply_spend (state : list history.t * bool)
    (spend : history_compact.t) : list history.t * bool :=
  if decide (history_compact.kind spend = point_kind.spend)
  then let '(result', ok) := scan_rows spend state.1 in
       (result', state.2 && ok)
  else state.

Definition reconcile_spends (compact : list history_compact.t)
    (state : list history.t * bool) : list history.t * bool :=
  fold_left apply_spend compact state.

(** Third loop: clear the checksum left in unspent rows. *)
Definition clear_checksum (row : history.t) : history.t :=
  if bool_decide (point.hash (history.spend row) = null_hash)
  then {| history.output := history.output row;
          history.output_height := history.output_height row;
          history.value := history.value row;
          history.spend := history.spend row;
          history.spend_height := max_uint32 |}
  else row.

(** The three loops in sequence, with the state of the assertions. *)
Definition expand_checked (compact : list history_compact.t)
  : list history.t * bool :=
  let '(result, ok) :=
    reconcile_spends compact (collect_outputs compact, true) in
  (map clear_checksum result, ok).

(** [expand]: what the function returns (a release build compiles the
    assertion away). *)
Definition expand (compact : list history_compact.t) : list history.t :=
  (expand_checked compact).1.

(** Whether every [BITCOIN_ASSERT] evaluated during [expand] holds. *)
Definition expand_assertions_hold (compact : list history_compact.t)
  : bool :=
  (expand_checked compact).2.

(** *** The reconciliation as the specification words it

    First pass: one row per Output row, sentinel spend, checksum parked in
    the spend height.  Second pass: for every Spend row, look up the first
    still-unspent row whose stored checksum equals the spend's
    [previous_checksum] and overwrite its spend fields.  Final pass: clear
    the placeholder of the rows whose spend is still unset. *)

Definition spec_first_pass (compact : list history_compact.t)
  : list history.t :=
  unspent_row <$>
    filter (fun row => history_compact.kind row = point_kind.output) compact.

Definition spec_resolve (rows : list history.t)
    (spend : history_compact.t) : list history.t :=
  match list_find (fun row => spend_matches spend row = true) rows with
  | Some (i, row) => <[i := set_spend spend row]> rows
  | None => rows
  end.

Definition spec_second_pass (compact : list history_compact.t)
    (rows : list history.t) : list history.t :=
  foldl spec_resolve rows
    (filter (fun row => history_compact.kind row = point_kind.spend) compact).

Definition spec_expand (compact : list history_compact.t)
  : list history.t :=
  clear_checksum <$> spec_second_pass compact (spec_first_pass compact).
End HistoryExpand.

(** ** Stealth expansion: [proxy::expand(const stealth_compact::list&)] *)

Module stealth_compact.
Record t := mk {
  ephemeral_public_key_hash : hash_digest;
  public_key_hash : short_hash;
  transaction_hash : hash_digest
}.
End stealth_compact.

Module stealth.
(** [ephemeral_public_key] is a 33-byte compressed key. *)
Record t := mk {
  ephemeral_public_key : list byte;
  public_key_hash : short_hash;
  transaction_hash : hash_digest
}.
End stealth.

(** "The sign byte of the ephmemeral key is fixed (0x02) by convention." *)
Definition ephemeral_public_key_sign : byte := Byte.x02.

(** [to_array], [splice] and [build_chunk] of the bitcoin library: a
    one-byte array, the concatenation of two arrays, and the concatenation
    of a list of slices. *)
Definition to_array (b : byte) : list byte := [b].
Definition splice (left right : list byte) : list byte := left ++ right.
Definition build_chunk (slices : list (list byte)) : data_chunk :=
  concat slices.

(** [reverse]: [std::reverse_copy] of the whole array into a fresh array
    of the same size. *)
Definition reverse (input : list byte) : list byte := rev input.

Definition expand_stealth_row (input : stealth_compact.t) : stealth.t :=
  {| stealth.ephemeral_public_key :=
       splice (to_array ephemeral_public_key_sign)
              (stealth_compact.ephemeral_public_key_hash input);
     stealth.public_key_hash :=
       reverse (stealth_compact.public_key_hash input);
     stealth.transaction_hash := stealth_compact.transaction_hash input |}.

(** The loop [for (const auto& in: compact) result.emplace_back(out)]. *)
Definition expand_stealth (compact : list stealth_compact.t)
  : list stealth.t :=
  fold_left (fun result input => result ++ [expand_stealth_row input])
    compact [].

(** ** Integer serialization *)

(** [static_cast<uint8_t>]: the low eight bits. *)
Definition to_uint8 (n : N) : byte :=
  match Byte.of_N (n mod 256) with
  | Some b => b
  | None => Byte.x00
  end.

(** [to_little_endian<T>] for an integer type of [width] bytes. *)
Fixpoint to_little_endian (width : nat) (n : N) : list byte :=
  match width with
  | O => []
  | S width' => to_uint8 n :: to_little_endian width' (n / 256)
  end.

Fixpoint from_little_endian (bytes : list byte) : N :=
  match bytes with
  | [] => 0
  | b :: rest => Byte.to_N b + 256 * from_little_endian rest
  end.

(** ** The payload reader

    The decoders receive a [reader] over the response payload.  The class
    belongs to the bitcoin library; it is modelled by what the decoders
    observe of it: the unread bytes and the failure flag that
    [operator bool] reports.  A read that runs past the end consumes what is
    left, fills the missing bytes with zero and sets the flag; a read on a
    failed reader yields zeros. *)

Module reader.
Record t := mk { remaining : list byte; valid : bool }.

Definition of_payload (payload : data_chunk) : t := mk payload true.
End reader.

(** A computation on the reader: the reader is threaded through. *)
Definition parse (A : Type) : Type := reader.t -> A * reader.t.

#[global] Instance parse_ret : MRet parse := fun A x r => (x, r).
#[global] Instance parse_bind : MBind parse :=
  fun A B f m r => let '(x, r') := m r in f x r'.

Definition read_bytes (n : nat) : parse (list byte) := fun r =>
  if reader.valid r then
    if decide (n <= length (reader.remaining r))%nat
    then (take n (reader.remaining r),
          reader.mk (drop n (reader.remaining r)) true)
    else (reader.remaining r
            ++ replicate (n - length (reader.remaining r)) Byte.x00,
          reader.mk [] false)
  else (replicate n Byte.x00, r).

Definition read_byte : parse byte :=
  bytes ← read_bytes 1; mret (hd Byte.x00 bytes).

Definition read_4_bytes_little_endian : parse N :=
  bytes ← read_bytes 4; mret (from_little_endian bytes).

Definition read_8_bytes_little_endian : parse N :=
  bytes ← read_bytes 8; mret (from_little_endian bytes).

Definition read_hash : parse hash_digest := read_bytes hash_size.

Definition read_short_hash : parse short_hash := read_bytes short_hash_size.

(** [operator bool] / [operator!] of the reader. *)
Definition is_valid : parse bool := fun r => (reader.valid r, r).

(** What a decoder does with its payload: it either calls the handler once
    with a value and returns [true], or returns [false] without calling
    it. *)
Inductive outcome (A : Type) : Type :=
  | delivered (x : A)
  | decode_failed.
Arguments delivered {A} x.
Arguments decode_failed {A}.

Definition outcome_map {A B} (f : A -> B) (o : outcome A) : outcome B :=
  match o with
  | delivered x => delivered (f x)
  | decode_failed => decode_failed
  end.

(** Modelled from the spec: [point::from_data] of the bitcoin library, by
    the wire layout of a point (32-byte hash, then 4-byte little-endian
    index); it reports whether the reader is still valid. *)
Definition point_from_data : parse (point.t * bool) :=
  h ← read_hash;
  i ← read_4_bytes_little_endian;
  ok ← is_valid;
  mret (point.mk h i, ok).

(** ** Response decoders *)

(** The decoder a fetcher binds to its request with [std::bind]. *)
Inductive reply_decoder :=
  | bind_decode_empty
  | bind_decode_transaction
  | bind_decode_height
  | bind_decode_block_header
  | bind_decode_transaction_index
  | bind_decode_validate
  | bind_decode_stealth
  | bind_decode_history
  | bind_decode_expanded_history.

Section Decoders.
(** What [is_exhausted] answers on a reader that has failed is decided by
    the reader class, outside this file; on a valid reader it holds
    exactly when no byte is left. *)
Variable failed_reader_is_exhausted : bool.

Definition is_exhausted : parse bool := fun r =>
  (if reader.valid r
   then bool_decide (reader.remaining r = [])
   else failed_reader_is_exhausted, r).

(** [point::checksum()] and the cast of the kind byte to [point_kind]. *)
Variable checksum : point.t -> N.
Variable point_kind_of_byte : byte -> point_kind.t.

(** [transaction::from_data] and [header::from_data] of the bitcoin
    library: they consume from the reader and report success. *)
Variables transaction header : Type.
Variable transaction_from_data : parse (transaction * bool).
Variable header_from_data : parse (header * bool).

Definition decode_empty : parse (outcome unit) :=
  exhausted ← is_exhausted;
  if negb exhausted then mret decode_failed
  else mret (delivered ()).

Definition decode_transaction : parse (outcome transaction) :=
  '(tx, success) ← transaction_from_data;
  if negb success then mret decode_failed
  else
    exhausted ← is_exhausted;
    if negb exhausted then mret decode_failed
    else mret (delivered tx).

Definition decode_height : parse (outcome N) :=
  last_height ← read_4_bytes_little_endian;
  exhausted ← is_exhausted;
  if negb exhausted then mret decode_failed
  else mret (delivered last_height).

Definition decode_block_header : parse (outcome header) :=
  '(hd, success) ← header_from_data;
  if negb success then mret decode_failed
  else
    exhausted ← is_exhausted;
    if negb exhausted then mret decode_failed
    else mret (delivered hd).

Definition decode_transaction_index : parse (outcome (N * N)) :=
  block_height ← read_4_bytes_little_endian;
  index ← read_4_bytes_little_endian;
  exhausted ← is_exhausted;
  if negb exhausted then mret decode_failed
  else mret (delivered (block_height, index)).

(** The loop shared by the four row decoders:
    [while (!payload.is_exhausted()) { read a row; push it;
    if (!success || !payload) return false; }].  [fuel] bounds the number
    of iterations; [None] means the bound was reached. *)
Fixpoint read_rows {A} (read_row : parse (A * bool)) (fuel : nat)
    (rows : list A) (r : reader.t) : option (outcome (list A) * reader.t) :=
  if (is_exhausted r).1 then Some (delivered rows, r)
  else
    match fuel with
    | O => None
    | S fuel' =>
        let '((row, success), r') := read_row r in
        if negb success || negb (reader.valid r')
        then Some (decode_failed, r')
        else read_rows read_row fuel' (rows ++ [row]) r'
    end.

(** One iteration per unread byte is enough (see [read_rows_terminates]);
    the decoders run the loop with that bound. *)
Definition run_rows {A} (read_row : parse (A * bool)) (r : reader.t)
  : option (outcome (list A) * reader.t) :=
  read_rows read_row (S (length (reader.remaining r))) [] r.

Definition after_rows {A B} (f : list A -> B)
    (res : option (outcome (list A) * reader.t))
  : option (outcome B * reader.t) :=
  match res with
  | Some (o, r) => Some (outcome_map f o, r)
  | None => None
  end.

Definition validate_row : parse (N * bool) :=
  index ← read_4_bytes_little_endian; mret (index, true).

Definition decode_validate (r : reader.t)
  : option (outcome (list N) * reader.t) :=
  run_rows validate_row r.

Definition stealth_row : parse (stealth_compact.t * bool) :=
  ephemeral_public_key_hash ← read_hash;
  public_key_hash ← read_short_hash;
  transaction_hash ← read_hash;
  mret (stealth_compact.mk ephemeral_public_key_hash public_key_hash
          transaction_hash, true).

Definition decode_stealth (r : reader.t)
  : option (outcome (list stealth.t) * reader.t) :=
  after_rows expand_stealth (run_rows stealth_row r).

(** "row.value || row.previous_checksum is a union, just read row.value." *)
Definition history_row : parse (history_compact.t * bool) :=
  kind ← read_byte;
  '(pt, success) ← point_from_data;
  height ← read_4_bytes_little_endian;
  value ← read_8_bytes_little_endian;
  mret (history_compact.mk (point_kind_of_byte kind) pt height value,
        success).

Definition decode_history (r : reader.t)
  : option (outcome (list history.t) * reader.t) :=
  after_rows (expand checksum) (run_rows history_row r).

Definition expanded_history_row : parse (history.t * bool) :=
  '(output, success) ← point_from_data;
  output_height ← read_8_bytes_little_endian;
  value ← read_8_bytes_little_endian;
  '(spend, success') ← point_from_data;
  spend_height ← read_8_bytes_little_endian;
  mret (history.mk output output_height value spend spend_height,
        success && success').

Definition decode_expanded_history (r : reader.t)
  : option (outcome (list history.t) * reader.t) :=
  run_rows expanded_history_row r.

(** The value a handler receives, over all handler types. *)
Inductive reply :=
  | reply_empty
  | reply_transaction (tx : transaction)
  | reply_height (last_height : N)
  | reply_block_header (hd : header)
  | reply_transaction_index (block_height index : N)
  | reply_validate (unconfirmed : list N)
  | reply_stealth (rows : list stealth.t)
  | reply_history (rows : list history.t).

Definition finished {A} (f : A -> reply) (res : outcome A * reader.t)
  : option (outcome reply * reader.t) :=
  Some (outcome_map f res.1, res.2).

(** Calling the function object a request was bound to. *)
Definition run_decoder (d : reply_decoder) (r : reader.t)
  : option (outcome reply * reader.t) :=
  match d with
  | bind_decode_empty => finished (fun _ => reply_empty) (decode_empty r)
  | bind_decode_transaction =>
      finished reply_transaction (decode_transaction r)
  | bind_decode_height => finished reply_height (decode_height r)
  | bind_decode_block_header =>
      finished reply_block_header (decode_block_header r)
  | bind_decode_transaction_index =>
      finished (fun '(block_height, index) =>
                  reply_transaction_index block_height index)
        (decode_transaction_index r)
  | bind_decode_validate => after_rows reply_validate (decode_validate r)
  | bind_decode_stealth => after_rows reply_stealth (decode_stealth r)
  | bind_decode_history => after_rows reply_history (decode_history r)
  | bind_decode_expanded_history =>
      after_rows reply_history (decode_expanded_history r)
  end.
End Decoders.

(** ** Requests: the fetchers and subscribers *)

Inductive error_code := bad_stream.

(** The arguments of one [send_request] call. *)
Record request := send_request {
  command : string;
  data : data_chunk;
  decoder : reply_decoder
}.

(** What a fetcher does before it returns: it either calls [on_error]
    itself, or hands one request to [send_request]. *)
Inductive call :=
  | on_error (ec : error_code)
  | sent (req : request).

Module binary.
(** [size] is the length of the prefix in bits, [blocks] its bytes. *)
Record t := mk { size : N; blocks : data_chunk }.
End binary.

Module payment_address.
Record t := mk { version : byte; hash : short_hash }.
End payment_address.

Module subscribe_type.
(** "(0 = address prefix, 1 = stealth prefix)" *)
Inductive t := address | stealth.

Definition to_N (discriminator : t) : N :=
  match discriminator with address => 0 | stealth => 1 end.
End subscribe_type.

Definition byte_bits : N := 8.

Definition blockchain_fetch_stealth (prefix : binary.t) (from_height : N)
  : call :=
  if decide (max_uint8 < binary.size prefix) then on_error bad_stream
  else
    let data := build_chunk
      [ to_array (to_uint8 (binary.size prefix));
        binary.blocks prefix;
        to_little_endian 4 from_height ] in
    sent (send_request "blockchain.fetch_stealth" data bind_decode_stealth).

Definition blockchain_fetch_history (address : payment_address.t)
    (from_height : N) : call :=
  let data := build_chunk
    [ to_array (payment_address.version address);
      reverse (payment_address.hash address);
      to_little_endian 4 from_height ] in
  sent (send_request "blockchain.fetch_history" data bind_decode_history).

Definition address_fetch_history (address : payment_address.t)
    (from_height : N) : call :=
  let data := build_chunk
    [ to_array (payment_address.version address);
      reverse (payment_address.hash address);
      to_little_endian 4 from_height ] in
  sent (send_request "address.fetch_history" data
          bind_decode_expanded_history).

(** "The difference between fetch_history and fetch_history2 is hash
    reversal." *)
Definition address_fetch_history2 (address : payment_address.t)
    (from_height : N) : call :=
  let data := build_chunk
    [ to_array (payment_address.version address);
      payment_address.hash address;
      to_little_endian 4 from_height ] in
  sent (send_request "address.fetch_history2" data bind_decode_history).

(** The simplified overload for a payment address. *)
Definition address_subscribe_address (address : payment_address.t) : call :=
  let prefix :=
    binary.mk (N.of_nat short_hash_size * byte_bits)
      (payment_address.hash address) in
  let data := build_chunk
    [ to_array (to_uint8 (subscribe_type.to_N subscribe_type.address));
      to_array (to_uint8 (binary.size prefix));
      binary.blocks prefix ] in
  sent (send_request "address.subscribe" data bind_decode_empty).

(** The overload that takes a prefix and a discriminator. *)
Definition address_subscribe (discriminator : subscribe_type.t)
    (prefix : binary.t) : call :=
  if decide (max_uint8 < binary.size prefix) then on_error bad_stream
  else
    let data := build_chunk
      [ to_array (to_uint8 (subscribe_type.to_N discriminator));
        to_array (to_uint8 (binary.size prefix));
        binary.blocks prefix ] in
    sent (send_request "address.subscribe" data bind_decode_empty).

(** The decoder a request is bound to is never run for a call that ended
    in [on_error]: there is no request to reply to. *)
Definition bound_decoder (c : call) : option reply_decoder :=
  match c with
  | on_error _ => None
  | sent req => Some (decoder req)
  end.

(** ** Inputs of the closed examples *)

(** A stand-in for [point::checksum()] where an example needs a concrete
    one: the index written over the first four bytes of the hash, the first
    eight bytes read as a little-endian integer, the top bit cleared. *)
Definition sample_checksum (p : point.t) : N :=
  from_little_endian
    (take 8 (to_little_endian 4 (point.index p) ++ drop 4 (point.hash p)))
  mod 2 ^ 63.

(** A cast of the kind byte: 0 is an output, 1 a spend. *)
Definition sample_point_kind (b : byte) : point_kind.t :=
  match Byte.to_N b with
  | 0 => point_kind.output
  | 1 => point_kind.spend
  | n => point_kind.unnamed n
  end.

(** A [from_data] that reads nothing and reports the state of the reader. *)
Definition sample_from_data : parse (unit * bool) :=
  fun r => ((tt, reader.valid r), r).

Definition sample_output : history_compact.t :=
  history_compact.mk point_kind.output
    (point.mk (replicate hash_size Byte.xaa) 0) 100 5000.

(** The spend of [sample_output]: its value slot holds the checksum of the
    output's point. *)
Definition sample_spend : history_compact.t :=
  history_compact.mk point_kind.spend
    (point.mk (replicate hash_size Byte.xbb) 1) 120
    (sample_checksum (history_compact.point sample_output)).

(** The same spend with the null hash as the hash of its point. *)
Definition sample_null_spend : history_compact.t :=
  history_compact.mk point_kind.spend (point.mk null_hash 1) 120
    (sample_checksum (history_compact.point sample_output)).

(** A spend of an output that is not in the history. *)
Definition sample_stray_spend : history_compact.t :=
  history_compact.mk point_kind.spend
    (point.mk (replicate hash_size Byte.xcc) 2) 130 7.

(** Address version 0 with hash bytes 01..14. *)
Definition sample_address : payment_address.t :=
  payment_address.mk Byte.x00
    [ Byte.x01; Byte.x02; Byte.x03; Byte.x04; Byte.x05;
      Byte.x06; Byte.x07; Byte.x08; Byte.x09; Byte.x0a;
      Byte.x0b; Byte.x0c; Byte.x0d; Byte.x0e; Byte.x0f;
      Byte.x10; Byte.x11; Byte.x12; Byte.x13; Byte.x14 ].

(** ** Predicates of the properties *)

(** A result row is resolved when its spend height is no longer a parked
    checksum: it is the unspent marker of a row without spend, or the
    height of the spend row whose point the row carries. *)
Definition taken_from (compact : list history_compact.t)
    (row : history.t) : Prop :=
  exists spend, spend ∈ compact
    /\ history_compact.kind spend = point_kind.spend
    /\ history.spend row = history_compact.point spend
    /\ history.spend_height row = history_compact.height spend.

Definition resolved (compact : list history_compact.t)
    (row : history.t) : Prop :=
  (point.hash (history.spend row) = null_hash
     /\ history.spend_height row = max_uint32)
  \/ (point.hash (history.spend row) <> null_hash
        /\ taken_from compact row).

Definition pending_or_taken (compact : list history_compact.t)
    (row : history.t) : Prop :=
  point.hash (history.spend row) = null_hash \/ taken_from compact row.

(** The fields an expanded row takes from its output row. *)
Definition output_fields (row : history.t) : point.t * N * N :=
  (history.output row, history.output_height row, history.value row).

Definition compact_fields (row : history_compact.t) : point.t * N * N :=
  (history_compact.point row, history_compact.height row,
   history_compact.value row).

(** A row is [parked] under [sum] while it is still unspent and its spend
    height holds [sum]: those are the rows a spend with that
    [previous_checksum] can take, the first one in the list first. *)
Definition parked (sum : N) (row : history.t) : Prop :=
  history.spend_height row = sum
  /\ point.hash (history.spend row) = null_hash.

#[local] Instance parked_dec sum row : Decision (parked sum row).
Proof. unfold parked. apply _. Defined.

(** A spend row that asks for the output with checksum [sum]. *)
Definition asks_for (sum : N) (spend : history_compact.t) : Prop :=
  history_compact.kind spend = point_kind.spend
  /\ history_compact.previous_checksum spend = sum.

#[local] Instance asks_for_dec sum spend : Decision (asks_for sum spend).
Proof. unfold asks_for. apply _. Defined.

(** [consumes k Q m]: on a valid reader, [m] needs exactly [k] bytes.  With
    [k] bytes or more it takes the first [k], leaves the reader valid and
    yields a value that satisfies [Q]; with fewer it leaves the reader
    failed; and a failed reader stays failed. *)
Definition consumes {A} (k : nat) (Q : A -> Prop) (m : parse A) : Prop :=
  (forall l, (k <= length l)%nat ->
     (m (reader.mk l true)).2 = reader.mk (drop k l) true
     /\ Q (m (reader.mk l true)).1)
  /\ (forall l, (length l < k)%nat ->
        reader.valid (m (reader.mk l true)).2 = false)
  /\ (forall r, reader.valid r = false -> reader.valid (m r).2 = false).

(** The decoders that test the reader after reading ([!payload], or the
    result of [from_data]), and not only [is_exhausted]. *)
Definition tests_reader (d : reply_decoder) : bool :=
  match d with
  | bind_decode_height | bind_decode_transaction_index => false
  | _ => true
  end.

(** The size in bytes of one row of the decoders that read rows until the
    payload is exhausted. *)
Definition row_size (d : reply_decoder) : option nat :=
  match d with
  | bind_decode_validate => Some 4%nat
  | bind_decode_stealth => Some 84%nat
  | bind_decode_history => Some 49%nat
  | bind_decode_expanded_history => Some 96%nat
  | _ => None
  end.

(** [from_data] reports success only with a valid reader. *)
Definition success_is_valid {A} (from_data : parse (A * bool)) : Prop :=
  forall r, (from_data r).1.2 = true -> reader.valid (from_data r).2 = true.

(** ** The remaining fetchers *)

Section Fetchers.
(** [transaction::to_data] of the bitcoin library. *)
Variable transaction : Type.
Variable to_data : transaction -> data_chunk.

Definition protocol_broadcast_transaction (tx : transaction) : call :=
  sent (send_request "protocol.broadcast_transaction" (to_data tx)
          bind_decode_empty).

Definition transaction_pool_validate (tx : transaction) : call :=
  sent (send_request "transaction_pool.validate" (to_data tx)
          bind_decode_validate).

Definition transaction_pool_fetch_transaction (tx_hash : hash_digest)
  : call :=
  let data := build_chunk [ tx_hash ] in
  sent (send_request "transaction_pool.fetch_transaction" data
          bind_decode_transaction).

Definition blockchain_fetch_transaction (tx_hash : hash_digest) : call :=
  let data := build_chunk [ tx_hash ] in
  sent (send_request "blockchain.fetch_transaction" data
          bind_decode_transaction).

Definition blockchain_fetch_last_height : call :=
  let data : data_chunk := [] in
  sent (send_request "blockchain.fetch_last_height" data bind_decode_height).

(** The overload of [blockchain_fetch_block_header] that takes a height. *)
Definition blockchain_fetch_block_header (height : N) : call :=
  let data := build_chunk [ to_little_endian 4 height ] in
  sent (send_request "blockchain.fetch_block_header" data
          bind_decode_block_header).

(** The overload that takes a block hash. *)
Definition blockchain_fetch_block_header_hash (block_hash : hash_digest)
  : call :=
  let data := build_chunk [ block_hash ] in
  sent (send_request "blockchain.fetch_block_header" data
          bind_decode_block_header).

Definition blockchain_fetch_transaction_index (tx_hash : hash_digest)
  : call :=
  let data := build_chunk [ tx_hash ] in
  sent (send_request "blockchain.fetch_transaction_index" data
          bind_decode_transaction_index).
End Fetchers.

(** ** The interface of the proxy as one type

    One call of a fetcher or subscriber, with its arguments. *)

Section ProxyInterface.
Variable transaction : Type.
Variable to_data : transaction -> data_chunk.

Inductive fetch :=
  | call_protocol_broadcast_transaction (tx : transaction)
  | call_transaction_pool_validate (tx : transaction)
  | call_transaction_pool_fetch_transaction (tx_hash : hash_digest)
  | call_blockchain_fetch_transaction (tx_hash : hash_digest)
  | call_blockchain_fetch_last_height
  | call_blockchain_fetch_block_header (height : N)
  | call_blockchain_fetch_block_header_hash (block_hash : hash_digest)
  | call_blockchain_fetch_transaction_index (tx_hash : hash_digest)
  | call_blockchain_fetch_stealth (prefix : binary.t) (from_height : N)
  | call_blockchain_fetch_history (address : payment_address.t)
      (from_height : N)
  | call_address_fetch_history (address : payment_address.t)
      (from_height : N)
  | call_address_fetch_history2 (address : payment_address.t)
      (from_height : N)
  | call_address_subscribe_address (address : payment_address.t)
  | call_address_subscribe (discriminator : subscribe_type.t)
      (prefix : binary.t).

Definition proxy_call (f : fetch) : call :=
  match f with
  | call_protocol_broadcast_transaction tx =>
      protocol_broadcast_transaction transaction to_data tx
  | call_transaction_pool_validate tx =>
      transaction_pool_validate transaction to_data tx
  | call_transaction_pool_fetch_transaction tx_hash =>
      transaction_pool_fetch_transaction tx_hash
  | call_blockchain_fetch_transaction tx_hash =>
      blockchain_fetch_transaction tx_hash
  | call_blockchain_fetch_last_height => blockchain_fetch_last_height
  | call_blockchain_fetch_block_header height =>
      blockchain_fetch_block_header height
  | call_blockchain_fetch_block_header_hash block_hash =>
      blockchain_fetch_block_header_hash block_hash
  | call_blockchain_fetch_transaction_index tx_hash =>
      blockchain_fetch_transaction_index tx_hash
  | call_blockchain_fetch_stealth prefix from_height =>
      blockchain_fetch_stealth prefix from_height
  | call_blockchain_fetch_history address from_height =>
      blockchain_fetch_history address from_height
  | call_address_fetch_history address from_height =>
      address_fetch_history address from_height
  | call_address_fetch_history2 address from_height =>
      address_fetch_history2 address from_height
  | call_address_subscribe_address address =>
      address_subscribe_address address
  | call_address_subscribe discriminator prefix =>
      address_subscribe discriminator prefix
  end.

(** The prefix argument of the calls that take one. *)
Definition prefix_of (f : fetch) : option binary.t :=
  match f with
  | call_blockchain_fetch_stealth prefix _ => Some prefix
  | call_address_subscribe _ prefix => Some prefix
  | _ => None
  end.
End ProxyInterface.

(** ** Wire layout of the rows the decoders read

    The bytes of one row, field by field in the order and width in which
    the row decoder reads them. *)

Definition point_bytes (p : point.t) : list byte :=
  point.hash p ++ to_little_endian 4 (point.index p).

Definition well_formed_point (p : point.t) : Prop :=
  length (point.hash p) = hash_size /\ point.index p <= max_uint32.

Definition max_uint64 : N := 18446744073709551615.

Definition stealth_row_bytes (row : stealth_compact.t) : list byte :=
  stealth_compact.ephemeral_public_key_hash row
    ++ stealth_compact.public_key_hash row
    ++ stealth_compact.transaction_hash row.

Definition well_formed_stealth_row (row : stealth_compact.t) : Prop :=
  length (stealth_compact.ephemeral_public_key_hash row) = hash_size
  /\ length (stealth_compact.public_key_hash row) = short_hash_size
  /\ length (stealth_compact.transaction_hash row) = hash_size.

(** A compact history row as it is on the wire: the kind is a byte. *)
Module history_wire.
Record t := mk { kind : byte; point : point.t; height : N; value : N }.
End history_wire.

Definition history_row_bytes (row : history_wire.t) : list byte :=
  history_wire.kind row
    :: point_bytes (history_wire.point row)
    ++ to_little_endian 4 (history_wire.height row)
    ++ to_little_endian 8 (history_wire.value row).

Definition well_formed_history_row (row : history_wire.t) : Prop :=
  well_formed_point (history_wire.point row)
  /\ history_wire.height row <= max_uint32
  /\ history_wire.value row <= max_uint64.

(** The row [history_row] builds from the wire row. *)
Definition history_row_read (point_kind_of_byte : byte -> point_kind.t)
    (row : history_wire.t) : history_compact.t :=
  history_compact.mk (point_kind_of_byte (history_wire.kind row))
    (history_wire.point row) (history_wire.height row)
    (history_wire.value row).

Definition expanded_history_row_bytes (row : history.t) : list byte :=
  point_bytes (history.output row)
    ++ to_little_endian 8 (history.output_height row)
    ++ to_little_endian 8 (history.value row)
    ++ point_bytes (history.spend row)
    ++ to_little_endian 8 (history.spend_height row).

Definition well_formed_expanded_row (row : history.t) : Prop :=
  well_formed_point (history.output row)
  /\ history.output_height row <= max_uint64
  /\ history.value row <= max_uint64
  /\ well_formed_point (history.spend row)
  /\ history.spend_height row <= max_uint64.

(** The row of an output that [expand] leaves unspent. *)
Definition unspent_result (output : history_compact.t) : history.t :=
  {| history.output := history_compact.point output;
     history.output_height := history_compact.height output;
     history.value := history_compact.value output;
     history.spend := point.mk null_hash max_uint32;
     history.spend_height := max_uint32 |}.

(** The row of an output that [expand] resolves with a spend. *)
Definition spent_result (output spend : history_compact.t) : history.t :=
  {| history.output := history_compact.point output;
     history.output_height := history_compact.height output;
     history.value := history_compact.value output;
     history.spend := history_compact.point spend;
     history.spend_height := history_compact.height spend |}.

(** No Spend row of the list has the null hash as the hash of its point. *)
Definition spends_hash_not_null (todo : list history_compact.t) : Prop :=
  forall spend, spend ∈ todo ->
    history_compact.kind spend = point_kind.spend ->
    point.hash (history_compact.point spend) <> null_hash.

(** A result row that carries a spend. *)
Definition is_spent (row : history.t) : Prop :=
  point.hash (history.spend row) <> null_hash.

(** A second spend of an output with the checksum of [sample_output]. *)
Definition sample_second_spend : history_compact.t :=
  history_compact.mk point_kind.spend
    (point.mk (replicate hash_size Byte.xdd) 3) 140
    (sample_checksum (history_compact.point sample_output)).

(** * Properties *)

(** ** History reconciliation *)

Section HistoryExpandProperties.
Variable checksum : point.t -> N.

Lemma collect_outputs_acc compact acc :
  fold_left
    (fun result output =>
       if decide (history_compact.kind output = point_kind.output)
       then result ++ [unspent_row checksum output]
       else result)
    compact acc
  = acc ++ spec_first_pass checksum compact.
Proof.
  unfold spec_first_pass.
  revert acc. induction compact as [|row compact IH]; intros acc; simpl.
  - by rewrite app_nil_r.
  - rewrite IH, filter_cons. case_decide; simpl.
    + by rewrite <- app_assoc.
    + done.
Qed.

Lemma collect_outputs_spec compact :
  collect_outputs checksum compact = spec_first_pass checksum compact.
Proof. unfold collect_outputs. by rewrite collect_outputs_acc. Qed.

Lemma scan_rows_spec spend rows :
  (scan_rows spend rows).1 = spec_resolve rows spend.
Proof.
  unfold spec_resolve.
  induction rows as [|row rows IH]; simpl; [done|].
  destruct (spend_matches spend row) eqn:Hm.
  - rewrite decide_True by done. done.
  - rewrite decide_False by congruence.
    destruct (scan_rows spend rows) as [rest ok]. simpl in *.
    destruct (list_find _ rows) as [[i found]|]; simpl; by rewrite IH.
Qed.

Lemma reconcile_spends_spec compact state :
  (reconcile_spends compact state).1 = spec_second_pass compact state.1.
Proof.
  unfold reconcile_spends, spec_second_pass.
  revert state. induction compact as [|row compact IH]; intros state; simpl.
  - done.
  - rewrite IH, filter_cons. unfold apply_spend. case_decide; simpl; [|done].
    pose proof (scan_rows_spec row state.1) as Hs.
    destruct (scan_rows row state.1) as [rows' ok]. simpl in *. by rewrite Hs.
Qed.

Lemma expand_spec compact :
  expand checksum compact = spec_expand checksum compact.
Proof.
  unfold expand, expand_checked, spec_expand.
  pose proof (reconcile_spends_spec compact
                (collect_outputs checksum compact, true)) as Hr.
  destruct (reconcile_spends _ _) as [result ok]. simpl in *.
  by rewrite Hr, collect_outputs_spec.
Qed.

Lemma scan_rows_pending_or_taken compact spend rows :
  spend ∈ compact ->
  history_compact.kind spend = point_kind.spend ->
  Forall (pending_or_taken compact) rows ->
  Forall (pending_or_taken compact) (scan_rows spend rows).1.
Proof.
  intros Hin Hkind. induction 1 as [|row rows Hrow Hrows IH]; simpl.
  - constructor.
  - destruct (spend_matches spend row); simpl.
    + constructor; [|done]. right. by exists spend.
    + destruct (scan_rows spend rows) as [rest ok]. simpl in *.
      by constructor.
Qed.

Lemma reconcile_spends_pending_or_taken compact todo state :
  todo ⊆ compact ->
  Forall (pending_or_taken compact) state.1 ->
  Forall (pending_or_taken compact) (reconcile_spends todo state).1.
Proof.
  unfold reconcile_spends.
  revert state. induction todo as [|spend todo IH]; intros state Hsub Hst.
  - done.
  - simpl. apply IH.
    { intros x Hx. apply Hsub. by right. }
    unfold apply_spend. case_decide as Hkind; [|done].
    pose proof (scan_rows_pending_or_taken compact spend state.1) as Hs.
    destruct (scan_rows spend state.1) as [rows' ok]. simpl in *.
    apply Hs; [|done..]. apply Hsub. by left.
Qed.

Lemma clear_checksum_resolved compact row :
  pending_or_taken compact row -> resolved compact (clear_checksum row).
Proof.
  unfold clear_checksum, resolved. intros Hrow. case_bool_decide as Hnull.
  - left. done.
  - right. split; [done|]. by destruct Hrow.
Qed.

Lemma expand_resolved compact row :
  row ∈ expand checksum compact -> resolved compact row.
Proof.
  unfold expand, expand_checked.
  pose proof (reconcile_spends_pending_or_taken compact compact
                (collect_outputs checksum compact, true)) as Hinv.
  destruct (reconcile_spends _ _) as [result ok]. simpl in *.
  intros Hrow. apply list_elem_of_fmap in Hrow as (row' & -> & Hrow').
  apply clear_checksum_resolved.
  eapply Forall_forall; [|exact Hrow']. apply Hinv; [done|].
  rewrite collect_outputs_spec. unfold spec_first_pass.
  apply Forall_fmap, Forall_forall. intros o _. by left.
Qed.

(** *** One output and the spend that consumes it *)

Lemma spend_matches_unspent_row output spend :
  history_compact.previous_checksum spend
    = checksum (history_compact.point output) ->
  spend_matches spend (unspent_row checksum output) = true.
Proof.
  intros Hsum. unfold spend_matches, unspent_row. cbn [history.spend_height
    history.spend point.hash].
  rewrite Hsum, N.eqb_refl. by rewrite bool_decide_eq_true_2.
Qed.

Lemma expand_checked_output_spend output spend :
  history_compact.kind output = point_kind.output ->
  history_compact.kind spend = point_kind.spend ->
  history_compact.previous_checksum spend
    = checksum (history_compact.point output) ->
  expand_checked checksum [output; spend]
    = ([clear_checksum (set_spend spend (unspent_row checksum output))],
       history_compact.value output =? history_compact.value spend)
  /\ expand_checked checksum [spend; output]
     = expand_checked checksum [output; spend].
Proof.
  intros Ho Hs Hsum.
  pose proof (spend_matches_unspent_row output spend Hsum) as Hm.
  unfold expand_checked, reconcile_spends, collect_outputs, apply_spend.
  simpl. rewrite Ho, Hs. simpl. by rewrite Hm.
Qed.

(** *** One row per output row, in order *)

Lemma scan_rows_output_fields spend rows :
  output_fields <$> (scan_rows spend rows).1 = output_fields <$> rows.
Proof.
  induction rows as [|row rows IH]; simpl; [done|].
  destruct (spend_matches spend row); simpl; [done|].
  destruct (scan_rows spend rows) as [rest ok]. simpl in *. by f_equal.
Qed.

Lemma reconcile_spends_output_fields compact state :
  output_fields <$> (reconcile_spends compact state).1
  = output_fields <$> state.1.
Proof.
  unfold reconcile_spends.
  revert state. induction compact as [|spend compact IH]; intros state.
  - done.
  - simpl. rewrite IH. unfold apply_spend. case_decide; [|done].
    pose proof (scan_rows_output_fields spend state.1) as Hs.
    by destruct (scan_rows spend state.1).
Qed.

Lemma expand_output_fields compact :
  output_fields <$> expand checksum compact
  = compact_fields <$>
      filter (fun row => history_compact.kind row = point_kind.output)
        compact.
Proof.
  unfold expand, expand_checked.
  pose proof (reconcile_spends_output_fields compact
                (collect_outputs checksum compact, true)) as Hr.
  destruct (reconcile_spends _ _) as [result ok]. simpl in *.
  rewrite <- list_fmap_compose.
  rewrite (list_fmap_ext (output_fields ∘ clear_checksum) output_fields
             result).
  2:{ intros i row _. unfold clear_checksum. simpl. by case_bool_decide. }
  rewrite Hr, collect_outputs_spec. unfold spec_first_pass.
  by rewrite <- list_fmap_compose.
Qed.

(** *** A spend that matches no row *)

Lemma scan_rows_no_match spend rows :
  Forall (fun row => spend_matches spend row = false) rows ->
  scan_rows spend rows = (rows, true).
Proof.
  induction 1 as [|row rows Hrow Hrows IH]; simpl; [done|].
  by rewrite Hrow, IH.
Qed.

Lemma spec_first_pass_app compact1 compact2 :
  spec_first_pass checksum (compact1 ++ compact2)
  = spec_first_pass checksum compact1 ++ spec_first_pass checksum compact2.
Proof. unfold spec_first_pass. by rewrite filter_app, fmap_app. Qed.

Lemma collect_outputs_skip_spend before spend after :
  history_compact.kind spend = point_kind.spend ->
  collect_outputs checksum (before ++ spend :: after)
  = collect_outputs checksum (before ++ after).
Proof.
  intros Hkind. rewrite !collect_outputs_spec, !spec_first_pass_app.
  f_equal. unfold spec_first_pass. rewrite filter_cons.
  rewrite decide_False; [done|]. rewrite Hkind. done.
Qed.

Lemma expand_checked_drop_spend before spend after :
  history_compact.kind spend = point_kind.spend ->
  Forall (fun row => spend_matches spend row = false)
    (reconcile_spends before
       (collect_outputs checksum (before ++ spend :: after), true)).1 ->
  expand_checked checksum (before ++ spend :: after)
  = expand_checked checksum (before ++ after).
Proof.
  intros Hkind Hnone. unfold expand_checked.
  rewrite collect_outputs_skip_spend in * by done.
  unfold reconcile_spends in *. rewrite !fold_left_app. simpl.
  destruct (fold_left apply_spend before _) as [rows ok] eqn:Hbefore.
  simpl in Hnone. unfold apply_spend at 2. simpl.
  rewrite decide_True by done.
  rewrite (scan_rows_no_match spend rows) by done.
  by rewrite andb_true_r.
Qed.

(** *** An output that no spend is left for *)

Lemma spend_matches_parked spend row :
  spend_matches spend row = true
  <-> parked (history_compact.previous_checksum spend) row.
Proof.
  unfold spend_matches, parked.
  by rewrite andb_true_iff, N.eqb_eq, bool_decide_eq_true.
Qed.

Lemma spend_matches_not_parked spend row :
  spend_matches spend row = false
  <-> ~ parked (history_compact.previous_checksum spend) row.
Proof.
  rewrite <- spend_matches_parked. by destruct (spend_matches spend row).
Qed.

Lemma scan_rows_length spend rows :
  length (scan_rows spend rows).1 = length rows.
Proof.
  induction rows as [|row rows IH]; simpl; [done|].
  destruct (spend_matches spend row); simpl; [done|].
  destruct (scan_rows spend rows) as [rest ok]. simpl in *. by f_equal.
Qed.

Lemma scan_rows_app_match spend rows1 rows2 :
  Exists (parked (history_compact.previous_checksum spend)) rows1 ->
  (scan_rows spend (rows1 ++ rows2)).1 = (scan_rows spend rows1).1 ++ rows2.
Proof.
  induction rows1 as [|row rows1 IH]; intros Hex; simpl.
  - by apply Exists_nil in Hex.
  - destruct (spend_matches spend row) eqn:Hm; simpl; [done|].
    apply Exists_cons in Hex as [Hrow|Hex].
    { apply spend_matches_not_parked in Hm. done. }
    specialize (IH Hex).
    destruct (scan_rows spend (rows1 ++ rows2)) as [rest ok].
    destruct (scan_rows spend rows1) as [rest1 ok1]. simpl in *.
    by f_equal.
Qed.

Lemma scan_rows_app_no_match spend rows1 rows2 :
  Forall (fun row => ~ parked (history_compact.previous_checksum spend) row)
    rows1 ->
  (scan_rows spend (rows1 ++ rows2)).1 = rows1 ++ (scan_rows spend rows2).1.
Proof.
  induction 1 as [|row rows1 Hrow Hrows IH]; simpl; [done|].
  apply spend_matches_not_parked in Hrow. rewrite Hrow.
  destruct (scan_rows spend (rows1 ++ rows2)) as [rest ok]. simpl in *.
  by f_equal.
Qed.

(** A scan takes at most one parked row away, and none of those parked
    under another checksum. *)
Lemma scan_rows_parked_count sum spend rows :
  (length (filter (parked sum) rows)
   <= length (filter (parked sum) (scan_rows spend rows).1)
      + (if decide (history_compact.previous_checksum spend = sum)
         then 1 else 0))%nat.
Proof.
  induction rows as [|row rows IH]; simpl; [lia|].
  destruct (spend_matches spend row) eqn:Hm; simpl.
  - apply spend_matches_parked in Hm.
    rewrite !filter_cons.
    destruct (decide (parked sum row)) as [Hrow|Hrow];
      destruct (decide (parked sum (set_spend spend row)));
      case_decide as Hsum; simpl; try lia.
    destruct Hm as [Hm _], Hrow as [Hrow _]. congruence.
  - destruct (scan_rows spend rows) as [rest ok]. simpl in *.
    rewrite !filter_cons. destruct (decide (parked sum row)); simpl; lia.
Qed.

Lemma filter_length_pos_Exists {A} (P : A -> Prop)
    `{forall x, Decision (P x)} (l : list A) :
  (0 < length (filter P l))%nat -> Exists P l.
Proof.
  induction l as [|x l IH]; simpl; [lia|].
  rewrite filter_cons. destruct (decide (P x)); simpl; intros Hlen.
  - by left.
  - right. by apply IH.
Qed.

(** A row parked under [sum] stays in place and untouched through a scan
    as long as a row parked under [sum] stands before it whenever the
    spend asks for [sum]. *)
Lemma scan_rows_keeps_row sum spend before row after :
  parked sum row ->
  (history_compact.previous_checksum spend = sum ->
   (0 < length (filter (parked sum) before))%nat) ->
  exists before' after',
    (scan_rows spend (before ++ row :: after)).1 = before' ++ row :: after'
    /\ length before' = length before
    /\ (length (filter (parked sum) before)
        <= length (filter (parked sum) before')
           + (if decide (history_compact.previous_checksum spend = sum)
              then 1 else 0))%nat.
Proof.
  intros Hrow Hfirst.
  destruct (decide (Exists
    (parked (history_compact.previous_checksum spend)) before)) as [Hex|Hno].
  - exists (scan_rows spend before).1, after.
    rewrite scan_rows_app_match by done.
    split; [done|]. split; [apply scan_rows_length|].
    apply scan_rows_parked_count.
  - apply not_Exists_Forall in Hno; [|intros x; apply _].
    assert (history_compact.previous_checksum spend <> sum) as Hsum.
    { intros Hsum. apply Hfirst in Hsum as Hpos.
      apply filter_length_pos_Exists in Hpos. rewrite <- Hsum in Hpos.
      apply Exists_exists in Hpos as (x & Hx & Hpx).
      eapply Forall_forall in Hno; [|exact Hx]. by apply Hno. }
    exists before, (scan_rows spend after).1.
    rewrite scan_rows_app_no_match by done. simpl.
    assert (spend_matches spend row = false) as ->.
    { apply spend_matches_not_parked. intros [Hh _].
      destruct Hrow as [Hrow _]. congruence. }
    destruct (scan_rows spend after) as [rest ok]. simpl.
    split; [done|]. split; [done|]. lia.
Qed.

Lemma reconcile_spends_keeps_row sum row todo :
  parked sum row ->
  forall state before after,
    state.1 = before ++ row :: after ->
    (length (filter (asks_for sum) todo)
     <= length (filter (parked sum) before))%nat ->
    exists before' after',
      (reconcile_spends todo state).1 = before' ++ row :: after'
      /\ length before' = length before.
Proof.
  intros Hrow. unfold reconcile_spends.
  induction todo as [|spend todo IH]; intros state before after Hst Hle.
  - simpl. by exists before, after.
  - simpl. rewrite filter_cons in Hle. unfold apply_spend.
    destruct (decide (history_compact.kind spend = point_kind.spend))
      as [Hkind|Hkind].
    + destruct (scan_rows_keeps_row sum spend before row after Hrow)
        as (before' & after' & Hscan & Hlen & Hcount).
      { intros Hsum. rewrite decide_True in Hle by done. simpl in Hle. lia. }
      rewrite Hst. destruct (scan_rows spend (before ++ row :: after))
        as [rows' ok]. simpl in Hscan.
      destruct (IH (rows', state.2 && ok) before' after' Hscan)
        as (before'' & after'' & Hfinal & Hlen').
      { unfold asks_for in Hle at 1.
        destruct (decide (history_compact.previous_checksum spend = sum)).
        - rewrite decide_True in Hle by done. simpl in Hle. lia.
        - rewrite decide_False in Hle by (intros [_ ?]; done). lia. }
      exists before'', after''. split; [done|]. lia.
    + rewrite decide_False in Hle by (intros [? _]; done).
      by apply (IH state before after).
Qed.

Lemma parked_first_pass_count sum compact :
  length (filter (parked sum) (spec_first_pass checksum compact))
  = length (filter
      (fun row => history_compact.kind row = point_kind.output
                  /\ checksum (history_compact.point row) = sum) compact).
Proof.
  unfold spec_first_pass.
  induction compact as [|row compact IH]; [done|].
  rewrite !filter_cons.
  destruct (decide (history_compact.kind row = point_kind.output)) as [Hk|Hk].
  - rewrite fmap_cons, filter_cons.
    destruct (decide (checksum (history_compact.point row) = sum)) as [Hs|Hs].
    + rewrite decide_True by (by split).
      rewrite decide_True by done. simpl. by f_equal.
    + rewrite decide_False by (intros [? _]; done).
      rewrite decide_False by (intros [_ ?]; done). done.
  - rewrite decide_False by (intros [? _]; done). done.
Qed.

Lemma expand_keeps_unspent before output after :
  history_compact.kind output = point_kind.output ->
  (length (filter (asks_for (checksum (history_compact.point output)))
             (before ++ output :: after))
   <= length (filter
        (fun row => history_compact.kind row = point_kind.output
                    /\ checksum (history_compact.point row)
                       = checksum (history_compact.point output))
        before))%nat ->
  expand checksum (before ++ output :: after)
    !! length (filter
         (fun row => history_compact.kind row = point_kind.output) before)
  = Some {| history.output := history_compact.point output;
            history.output_height := history_compact.height output;
            history.value := history_compact.value output;
            history.spend := point.mk null_hash max_uint32;
            history.spend_height := max_uint32 |}.
Proof.
  intros Hkind Hle.
  set (compact := before ++ output :: after) in *.
  set (sum := checksum (history_compact.point output)) in *.
  assert (parked sum (unspent_row checksum output)) as Hrow by done.
  destruct (reconcile_spends_keeps_row sum (unspent_row checksum output)
              compact Hrow (collect_outputs checksum compact, true)
              (spec_first_pass checksum before)
              (spec_first_pass checksum after))
    as (before' & after' & Hfinal & Hlen).
  { simpl. rewrite collect_outputs_spec. unfold compact.
    rewrite spec_first_pass_app. f_equal. unfold spec_first_pass.
    rewrite filter_cons, decide_True by done. done. }
  { by rewrite parked_first_pass_count. }
  unfold expand, expand_checked.
  destruct (reconcile_spends compact _) as [result ok]. simpl in *.
  subst result. unfold spec_first_pass in Hlen.
  rewrite length_fmap in Hlen. rewrite <- Hlen.
  rewrite list_lookup_fmap, list_lookup_middle by done. simpl.
  unfold clear_checksum, unspent_row. simpl. done.
Qed.
End HistoryExpandProperties.

(** ** Stealth expansion *)

Lemma expand_stealth_acc compact acc :
  fold_left (fun result input => result ++ [expand_stealth_row input])
    compact acc
  = acc ++ (expand_stealth_row <$> compact).
Proof.
  revert acc. induction compact as [|input compact IH]; intros acc; simpl.
  - by rewrite app_nil_r.
  - by rewrite IH, <- app_assoc.
Qed.

Lemma expand_stealth_fmap compact :
  expand_stealth compact = expand_stealth_row <$> compact.
Proof. unfold expand_stealth. by rewrite expand_stealth_acc. Qed.

(** ** Integer serialization *)

Lemma to_uint8_to_N n : Byte.to_N (to_uint8 n) = n mod 256.
Proof.
  unfold to_uint8. destruct (Byte.of_N (n mod 256)) as [b|] eqn:Hb.
  - by apply Byte.to_of_N.
  - apply Byte.of_N_None_iff in Hb.
    pose proof (N.mod_upper_bound n 256). lia.
Qed.

Lemma to_little_endian_length width n :
  length (to_little_endian width n) = width.
Proof.
  revert n. induction width as [|width IH]; intros n; simpl; [done|].
  by rewrite IH.
Qed.

Lemma from_to_little_endian width n :
  from_little_endian (to_little_endian width n) = n mod 256 ^ N.of_nat width.
Proof.
  revert n. induction width as [|width IH]; intros n.
  - simpl. by rewrite N.mod_1_r.
  - cbn [to_little_endian from_little_endian].
    rewrite IH, to_uint8_to_N, Nat2N.inj_succ, N.pow_succ_r'.
    rewrite N.Div0.mod_mul_r. done.
Qed.

Lemma from_to_little_endian_4 n :
  n <= max_uint32 -> from_little_endian (to_little_endian 4 n) = n.
Proof.
  intros Hn. rewrite from_to_little_endian. apply N.mod_small.
  unfold max_uint32 in Hn. simpl. lia.
Qed.

(** ** The reader *)

Lemma consumes_ret {A} (Q : A -> Prop) (x : A) :
  Q x -> consumes 0 Q (mret x).
Proof.
  intros HQ. split; [|split].
  - intros l _. by rewrite drop_0.
  - intros l Hl. lia.
  - done.
Qed.

Lemma consumes_bind {A B} k1 k2 (Q1 : A -> Prop) (Q2 : B -> Prop)
    (m : parse A) (f : A -> parse B) :
  consumes k1 Q1 m ->
  (forall x, Q1 x -> consumes k2 Q2 (f x)) ->
  (forall x, forall r, reader.valid r = false ->
     reader.valid (f x r).2 = false) ->
  consumes (k1 + k2) Q2 (m ≫= f).
Proof.
  intros (Hm_ok & Hm_short & Hm_failed) Hf Hf_failed.
  unfold mbind, parse_bind. split; [|split].
  - intros l Hl. destruct (Hm_ok l) as [Hr HQ]; [lia|].
    destruct (m (reader.mk l true)) as [x r']. simpl in *. subst r'.
    destruct (Hf x HQ) as (Hf_ok & _ & _).
    destruct (Hf_ok (drop k1 l)) as [Hr' HQ'].
    { rewrite length_drop. lia. }
    rewrite drop_drop in Hr'. done.
  - intros l Hl. destruct (decide (k1 <= length l)%nat) as [Hk1|Hk1].
    + destruct (Hm_ok l Hk1) as [Hr HQ].
      destruct (m (reader.mk l true)) as [x r']. simpl in *. subst r'.
      destruct (Hf x HQ) as (_ & Hf_short & _).
      apply Hf_short. rewrite length_drop. lia.
    + specialize (Hm_short l). 
      destruct (m (reader.mk l true)) as [x r']. simpl in *.
      apply Hf_failed, Hm_short. lia.
  - intros r Hr. specialize (Hm_failed r Hr).
    destruct (m r) as [x r']. simpl in *. by apply Hf_failed.
Qed.

Lemma consumes_weaken {A} k (Q Q' : A -> Prop) (m : parse A) :
  (forall x, Q x -> Q' x) -> consumes k Q m -> consumes k Q' m.
Proof.
  intros HQ (Hok & Hshort & Hfailed). split; [|split]; [|done..].
  intros l Hl. destruct (Hok l Hl). split; [done|]. by apply HQ.
Qed.

Lemma consumes_failed {A} k (Q : A -> Prop) (m : parse A) r :
  consumes k Q m -> reader.valid r = false -> reader.valid (m r).2 = false.
Proof. intros (_ & _ & Hfailed). apply Hfailed. Qed.

Lemma consumes_read_bytes n : consumes n (fun _ => True) (read_bytes n).
Proof.
  unfold read_bytes. split; [|split]; simpl.
  - intros l Hl. by rewrite decide_True.
  - intros l Hl. rewrite decide_False by lia. done.
  - intros r Hr. by rewrite Hr.
Qed.

Lemma consumes_is_valid : consumes 0 (fun ok => ok = true) is_valid.
Proof.
  unfold is_valid. split; [|split]; simpl.
  - intros l _. by rewrite drop_0.
  - intros l Hl. lia.
  - done.
Qed.

(** Reads on a failed reader compute: the reader comes back unchanged. *)
Ltac failed_reader :=
  let l := fresh "l" in
  let v := fresh "v" in
  let Hv := fresh "Hv" in
  intros [l v] Hv; simpl in Hv; subst v; reflexivity.

Lemma consumes_read_byte : consumes 1 (fun _ => True) read_byte.
Proof.
  unfold read_byte. apply (consumes_bind 1 0 (fun _ => True)).
  - apply consumes_read_bytes.
  - intros bytes _. by apply consumes_ret.
  - done.
Qed.

Lemma consumes_read_little_endian n :
  consumes n (fun _ => True)
    (bytes ← read_bytes n; mret (from_little_endian bytes)).
Proof.
  replace n with (n + 0)%nat at 1 by lia.
  apply (consumes_bind n 0 (fun _ => True)).
  - apply consumes_read_bytes.
  - intros bytes _. by apply consumes_ret.
  - done.
Qed.

Lemma consumes_point_from_data :
  consumes 36 (fun res => res.2 = true) point_from_data.
Proof.
  unfold point_from_data, read_hash, read_4_bytes_little_endian.
  apply (consumes_bind 32 4 (fun _ => True)).
  - apply consumes_read_bytes.
  - intros h _. apply (consumes_bind 4 0 (fun _ => True)).
    + apply consumes_read_little_endian.
    + intros i _. apply (consumes_bind 0 0 (fun ok => ok = true)).
      * apply consumes_is_valid.
      * intros ok ->. by apply consumes_ret.
      * done.
    + done.
  - intros h. failed_reader.
Qed.

Lemma consumes_validate_row :
  consumes 4 (fun res => res.2 = true) validate_row.
Proof.
  unfold validate_row, read_4_bytes_little_endian.
  apply (consumes_bind 4 0 (fun _ => True)).
  - apply consumes_read_little_endian.
  - intros index _. by apply consumes_ret.
  - done.
Qed.

Lemma consumes_stealth_row :
  consumes 84 (fun res => res.2 = true) stealth_row.
Proof.
  unfold stealth_row, read_hash, read_short_hash.
  apply (consumes_bind 32 52 (fun _ => True)).
  - apply consumes_read_bytes.
  - intros h1 _. apply (consumes_bind 20 32 (fun _ => True)).
    + apply consumes_read_bytes.
    + intros h2 _. apply (consumes_bind 32 0 (fun _ => True)).
      * apply consumes_read_bytes.
      * intros h3 _. by apply consumes_ret.
      * done.
    + intros h2. failed_reader.
  - intros h1. failed_reader.
Qed.

Lemma consumes_history_row point_kind_of_byte :
  consumes 49 (fun res => res.2 = true) (history_row point_kind_of_byte).
Proof.
  unfold history_row, read_4_bytes_little_endian, read_8_bytes_little_endian.
  apply (consumes_bind 1 48 (fun _ => True)).
  - apply consumes_read_byte.
  - intros kind _. apply (consumes_bind 36 12 (fun res => res.2 = true)).
    + apply consumes_point_from_data.
    + intros [pt success] Hs. simpl in Hs. subst success.
      apply (consumes_bind 4 8 (fun _ => True)).
      * apply consumes_read_little_endian.
      * intros height _. apply (consumes_bind 8 0 (fun _ => True)).
        -- apply consumes_read_little_endian.
        -- intros value _. by apply consumes_ret.
        -- done.
      * intros height. failed_reader.
    + intros [pt success]. failed_reader.
  - intros kind. failed_reader.
Qed.

Lemma consumes_expanded_history_row :
  consumes 96 (fun res => res.2 = true) expanded_history_row.
Proof.
  unfold expanded_history_row, read_8_bytes_little_endian.
  apply (consumes_bind 36 60 (fun res => res.2 = true)).
  - apply consumes_point_from_data.
  - intros [output success] Hs. simpl in Hs. subst success.
    apply (consumes_bind 8 52 (fun _ => True)).
    + apply consumes_read_little_endian.
    + intros output_height _. apply (consumes_bind 8 44 (fun _ => True)).
      * apply consumes_read_little_endian.
      * intros value _.
        apply (consumes_bind 36 8 (fun res => res.2 = true)).
        -- apply consumes_point_from_data.
        -- intros [spend success] Hs. simpl in Hs. subst success.
           apply (consumes_bind 8 0 (fun _ => True)).
           ++ apply consumes_read_little_endian.
           ++ intros spend_height _. by apply consumes_ret.
           ++ done.
        -- intros [spend success]. failed_reader.
      * intros value. failed_reader.
    + intros output_height. failed_reader.
  - intros [output success]. failed_reader.
Qed.

(** ** Response decoders *)

Section DecoderProperties.
Variable failed_reader_is_exhausted : bool.
Variable checksum : point.t -> N.
Variable point_kind_of_byte : byte -> point_kind.t.
Variables transaction header : Type.
Variable transaction_from_data : parse (transaction * bool).
Variable header_from_data : parse (header * bool).

Lemma is_exhausted_valid r :
  reader.valid r = true ->
  (is_exhausted failed_reader_is_exhausted r).1 = true ->
  reader.remaining r = [].
Proof.
  unfold is_exhausted. simpl. intros ->. by rewrite bool_decide_eq_true.
Qed.

(** *** The row loop *)

Lemma read_rows_leftover {A} (read_row : parse (A * bool)) fuel rows r o r' :
  read_rows failed_reader_is_exhausted read_row fuel rows r = Some (o, r') ->
  reader.valid r' = true ->
  reader.remaining r' <> [] ->
  o = decode_failed.
Proof.
  revert rows r. induction fuel as [|fuel IH]; intros rows r; cbn [read_rows].
  - destruct (is_exhausted failed_reader_is_exhausted r).1 eqn:Hex; [|done].
    intros [= <- <-] Hvalid Hrem. by apply is_exhausted_valid in Hex.
  - destruct (is_exhausted failed_reader_is_exhausted r).1 eqn:Hex.
    + intros [= <- <-] Hvalid Hrem. by apply is_exhausted_valid in Hex.
    + destruct (read_row r) as [[row success] r1].
      destruct (negb success || negb (reader.valid r1)).
      * by intros [= <- <-].
      * apply IH.
Qed.

Lemma read_rows_failure {A} (read_row : parse (A * bool)) fuel rows r o r' :
  reader.valid r = true ->
  read_rows failed_reader_is_exhausted read_row fuel rows r = Some (o, r') ->
  reader.valid r' = false ->
  o = decode_failed.
Proof.
  revert rows r. induction fuel as [|fuel IH]; intros rows r Hr;
    cbn [read_rows].
  - destruct (is_exhausted failed_reader_is_exhausted r).1; [|done].
    intros [= <- <-] Hvalid. congruence.
  - destruct (is_exhausted failed_reader_is_exhausted r).1.
    + intros [= <- <-] Hvalid. congruence.
    + destruct (read_row r) as [[row success] r1].
      destruct success, (reader.valid r1) eqn:Hr1; simpl;
        try (by intros [= <- <-]).
      by apply IH.
Qed.

(** On a valid reader the loop ends within one iteration per unread
    byte: it delivers when the unread bytes are whole rows and fails
    when the last row is cut short. *)
Lemma read_rows_valid {A} (read_row : parse (A * bool)) k :
  (0 < k)%nat ->
  consumes k (fun res => res.2 = true) read_row ->
  forall fuel l rows, (length l < fuel)%nat ->
    exists o r',
      read_rows failed_reader_is_exhausted read_row fuel rows
        (reader.mk l true) = Some (o, r')
      /\ ((length l mod k)%nat = 0%nat ->
          r' = reader.mk [] true
          /\ exists rows', o = delivered (rows ++ rows')
               /\ length rows' = (length l / k)%nat)
      /\ ((length l mod k)%nat <> 0%nat ->
          o = decode_failed /\ reader.valid r' = false).
Proof.
  intros Hk (Hok & Hshort & Hfailed).
  induction fuel as [|fuel IH]; intros l rows Hl; [lia|].
  cbn [read_rows]. unfold is_exhausted at 1. cbn [reader.valid fst].
  case_bool_decide as Hnil; simpl in Hnil.
  - subst l. exists (delivered rows), (reader.mk [] true).
    split; [done|]. simpl. rewrite Nat.Div0.mod_0_l, Nat.Div0.div_0_l.
    split; [|done]. intros _. split; [done|]. exists []. by rewrite app_nil_r.
  - destruct (decide (k <= length l)%nat) as [Hlen|Hlen].
    + destruct (Hok l Hlen) as [Hr Hs].
      destruct (read_row (reader.mk l true)) as [[row success] r1].
      simpl in Hr, Hs. subst r1 success. simpl.
      destruct (IH (drop k l) (rows ++ [row])) as (o & r' & Hrun & Hdiv & Hcut).
      { rewrite length_drop. lia. }
      rewrite length_drop in Hdiv, Hcut.
      assert (((length l - k) mod k)%nat = (length l mod k)%nat) as Hmod.
      { replace (length l) with ((length l - k) + 1 * k)%nat at 2 by lia.
        by rewrite Nat.Div0.mod_add. }
      assert ((length l / k)%nat = S ((length l - k) / k)%nat) as Hquot.
      { replace (length l) with ((length l - k) + 1 * k)%nat at 1 by lia.
        rewrite Nat.div_add by lia. lia. }
      rewrite Hmod in Hdiv, Hcut.
      exists o, r'. split; [done|]. split; [|done].
      intros Hz. destruct (Hdiv Hz) as (-> & rows' & -> & Hrows').
      split; [done|]. exists (row :: rows').
      rewrite <- app_assoc. split; [done|]. simpl. lia.
    + specialize (Hshort l). 
      destruct (read_row (reader.mk l true)) as [[row success] r1].
      simpl in Hshort. rewrite Hshort by lia. rewrite orb_true_r.
      exists decode_failed, r1. split; [done|].
      rewrite Nat.mod_small by lia.
      split; [|intros _; split; [done|apply Hshort; lia]].
      intros Hz. destruct l; simpl in *; [done|lia].
Qed.

Lemma run_rows_terminates {A} (read_row : parse (A * bool)) k r :
  (0 < k)%nat ->
  consumes k (fun res => res.2 = true) read_row ->
  is_Some (run_rows failed_reader_is_exhausted read_row r).
Proof.
  intros Hk Hrow. unfold run_rows. destruct r as [l [|]].
  - destruct (read_rows_valid read_row k Hk Hrow (S (length l)) l [])
      as (o & r' & Hrun & _); [simpl; lia|].
    simpl in *. by rewrite Hrun.
  - cbn [read_rows]. unfold is_exhausted at 1. cbn [reader.valid fst].
    destruct failed_reader_is_exhausted; [done|].
    pose proof (consumes_failed k _ read_row (reader.mk l false) Hrow
                  eq_refl) as Hfailed.
    destruct (read_row (reader.mk l false)) as [[row success] r1].
    simpl in Hfailed. rewrite Hfailed, orb_true_r. done.
Qed.

(** *** Every decoder *)

Abbreviation run :=
  (run_decoder failed_reader_is_exhausted checksum point_kind_of_byte
     transaction header transaction_from_data header_from_data).

Lemma after_rows_Some {A B} (f : list A -> B) res o r' :
  after_rows f res = Some (o, r') ->
  exists o0, res = Some (o0, r') /\ o = outcome_map f o0.
Proof.
  destruct res as [[o0 r0]|]; simpl; [|done].
  intros [= <- <-]. by exists o0.
Qed.

Lemma outcome_map_failed {A B} (f : A -> B) o :
  o = decode_failed -> outcome_map f o = decode_failed.
Proof. by intros ->. Qed.

(** Unfolds a decoder without a loop down to the test on
    [is_exhausted]. *)
Ltac unfold_decoder :=
  unfold run_decoder, finished, decode_empty, decode_transaction,
    decode_height, decode_block_header, decode_transaction_index,
    read_4_bytes_little_endian, mbind, parse_bind, mret, parse_ret.

Lemma run_decoder_terminates d r : is_Some (run d r).
Proof.
  destruct d; try (by unfold run_decoder, finished).
  - unfold run_decoder, decode_validate.
    destruct (run_rows_terminates validate_row 4 r) as [[o r'] ->];
      [lia|apply consumes_validate_row|done].
  - unfold run_decoder, decode_stealth.
    destruct (run_rows_terminates stealth_row 84 r) as [[o r'] ->];
      [lia|apply consumes_stealth_row|done].
  - unfold run_decoder, decode_history.
    destruct (run_rows_terminates (history_row point_kind_of_byte) 49 r)
      as [[o r'] ->]; [lia|apply consumes_history_row|done].
  - unfold run_decoder, decode_expanded_history.
    destruct (run_rows_terminates expanded_history_row 96 r)
      as [[o r'] ->]; [lia|apply consumes_expanded_history_row|done].
Qed.

Lemma run_decoder_leftover d r o r' :
  run d r = Some (o, r') ->
  reader.valid r' = true ->
  reader.remaining r' <> [] ->
  o = decode_failed.
Proof.
  destruct d.
  - unfold_decoder.
    destruct (is_exhausted failed_reader_is_exhausted r) as [ex r1] eqn:Hex.
    assert (r1 = r) as -> by (by inversion Hex).
    destruct ex; simpl; intros [= <- <-] Hvalid Hrem; [|done].
    apply (f_equal fst) in Hex. by apply is_exhausted_valid in Hex.
  - unfold_decoder.
    destruct (transaction_from_data r) as [[tx success] r1].
    destruct success; cbn [negb]; [|by intros [= <- <-]].
    destruct (is_exhausted failed_reader_is_exhausted r1) as [ex r2] eqn:Hex.
    assert (r2 = r1) as -> by (by inversion Hex).
    destruct ex; simpl; intros [= <- <-] Hvalid Hrem; [|done].
    apply (f_equal fst) in Hex. by apply is_exhausted_valid in Hex.
  - unfold_decoder. destruct (read_bytes 4 r) as [bytes r1].
    destruct (is_exhausted failed_reader_is_exhausted r1) as [ex r2] eqn:Hex.
    assert (r2 = r1) as -> by (by inversion Hex).
    destruct ex; simpl; intros [= <- <-] Hvalid Hrem; [|done].
    apply (f_equal fst) in Hex. by apply is_exhausted_valid in Hex.
  - unfold_decoder.
    destruct (header_from_data r) as [[hd success] r1].
    destruct success; cbn [negb]; [|by intros [= <- <-]].
    destruct (is_exhausted failed_reader_is_exhausted r1) as [ex r2] eqn:Hex.
    assert (r2 = r1) as -> by (by inversion Hex).
    destruct ex; simpl; intros [= <- <-] Hvalid Hrem; [|done].
    apply (f_equal fst) in Hex. by apply is_exhausted_valid in Hex.
  - unfold_decoder. destruct (read_bytes 4 r) as [bytes r1].
    destruct (read_bytes 4 r1) as [bytes' r2].
    destruct (is_exhausted failed_reader_is_exhausted r2) as [ex r3] eqn:Hex.
    assert (r3 = r2) as -> by (by inversion Hex).
    destruct ex; simpl; intros [= <- <-] Hvalid Hrem; [|done].
    apply (f_equal fst) in Hex. by apply is_exhausted_valid in Hex.
  - unfold run_decoder, decode_validate, run_rows.
    intros (o0 & Hrun & ->)%after_rows_Some Hvalid Hrem.
    apply outcome_map_failed. by eapply read_rows_leftover.
  - unfold run_decoder, decode_stealth, run_rows.
    intros (o0 & (o1 & Hrun & ->)%after_rows_Some & ->)%after_rows_Some
      Hvalid Hrem.
    do 2 apply outcome_map_failed. by eapply read_rows_leftover.
  - unfold run_decoder, decode_history, run_rows.
    intros (o0 & (o1 & Hrun & ->)%after_rows_Some & ->)%after_rows_Some
      Hvalid Hrem.
    do 2 apply outcome_map_failed. by eapply read_rows_leftover.
  - unfold run_decoder, decode_expanded_history, run_rows.
    intros (o0 & Hrun & ->)%after_rows_Some Hvalid Hrem.
    apply outcome_map_failed. by eapply read_rows_leftover.
Qed.

(** *** Parse failures

    A parse failure leaves the reader failed.  The decoders that test the
    reader after reading ([!payload], or the result of [from_data]) fail
    with it, whatever [is_exhausted] answers on a failed reader. *)

Lemma run_decoder_failure_tested d r o r' :
  success_is_valid transaction_from_data ->
  success_is_valid header_from_data ->
  tests_reader d = true ->
  reader.valid r = true ->
  run d r = Some (o, r') ->
  reader.valid r' = false ->
  o = decode_failed.
Proof.
  intros Htx Hhd Hd Hr. destruct d; try discriminate Hd; clear Hd.
  - unfold_decoder.
    destruct (is_exhausted failed_reader_is_exhausted r) as [ex r1] eqn:Hex.
    assert (r1 = r) as -> by (by inversion Hex).
    destruct ex; simpl; intros [= <- <-] Hvalid; [congruence|done].
  - unfold_decoder. specialize (Htx r).
    destruct (transaction_from_data r) as [[tx success] r1].
    destruct success; cbn [negb]; [|by intros [= <- <-]].
    destruct (is_exhausted failed_reader_is_exhausted r1) as [ex r2] eqn:Hex.
    assert (r2 = r1) as -> by (by inversion Hex).
    destruct ex; simpl; intros [= <- <-] Hvalid; [|done].
    simpl in Htx. rewrite Htx in Hvalid; done.
  - unfold_decoder. specialize (Hhd r).
    destruct (header_from_data r) as [[hd success] r1].
    destruct success; cbn [negb]; [|by intros [= <- <-]].
    destruct (is_exhausted failed_reader_is_exhausted r1) as [ex r2] eqn:Hex.
    assert (r2 = r1) as -> by (by inversion Hex).
    destruct ex; simpl; intros [= <- <-] Hvalid; [|done].
    simpl in Hhd. rewrite Hhd in Hvalid; done.
  - unfold run_decoder, decode_validate, run_rows.
    intros (o0 & Hrun & ->)%after_rows_Some Hvalid.
    apply outcome_map_failed. by eapply read_rows_failure.
  - unfold run_decoder, decode_stealth, run_rows.
    intros (o0 & (o1 & Hrun & ->)%after_rows_Some & ->)%after_rows_Some
      Hvalid.
    do 2 apply outcome_map_failed. by eapply read_rows_failure.
  - unfold run_decoder, decode_history, run_rows.
    intros (o0 & (o1 & Hrun & ->)%after_rows_Some & ->)%after_rows_Some
      Hvalid.
    do 2 apply outcome_map_failed. by eapply read_rows_failure.
  - unfold run_decoder, decode_expanded_history, run_rows.
    intros (o0 & Hrun & ->)%after_rows_Some Hvalid.
    apply outcome_map_failed. by eapply read_rows_failure.
Qed.

(** The two decoders that only test [is_exhausted] fail on a failed
    reader exactly when [is_exhausted] does not hold of it. *)
Lemma decode_height_failed_reader r :
  reader.valid (read_4_bytes_little_endian r).2 = false ->
  (decode_height failed_reader_is_exhausted r).1
  = if failed_reader_is_exhausted
    then delivered (read_4_bytes_little_endian r).1
    else decode_failed.
Proof.
  unfold decode_height, mbind, parse_bind, mret, parse_ret.
  destruct (read_4_bytes_little_endian r) as [last_height r1]. simpl.
  intros ->. by destruct failed_reader_is_exhausted.
Qed.

Lemma decode_transaction_index_failed_reader r :
  reader.valid
    (read_4_bytes_little_endian (read_4_bytes_little_endian r).2).2
    = false ->
  (decode_transaction_index failed_reader_is_exhausted r).1
  = if failed_reader_is_exhausted
    then delivered
           ((read_4_bytes_little_endian r).1,
            (read_4_bytes_little_endian
               (read_4_bytes_little_endian r).2).1)
    else decode_failed.
Proof.
  unfold decode_transaction_index, mbind, parse_bind, mret, parse_ret.
  destruct (read_4_bytes_little_endian r) as [block_height r1]. simpl.
  destruct (read_4_bytes_little_endian r1) as [index r2]. simpl.
  intros ->. by destruct failed_reader_is_exhausted.
Qed.

(** *** Bytes after the expected fields *)

Lemma decode_empty_trailing payload :
  payload <> [] ->
  decode_empty failed_reader_is_exhausted (reader.of_payload payload)
  = (decode_failed, reader.of_payload payload).
Proof.
  intros Hne. unfold decode_empty, is_exhausted, mbind, parse_bind. simpl.
  by rewrite bool_decide_eq_false_2.
Qed.

Lemma decode_height_trailing payload :
  (4 < length payload)%nat ->
  decode_height failed_reader_is_exhausted (reader.of_payload payload)
  = (decode_failed, reader.mk (drop 4 payload) true).
Proof.
  intros Hlen.
  unfold decode_height, read_4_bytes_little_endian, read_bytes, is_exhausted,
    mbind, parse_bind, mret, parse_ret. simpl.
  rewrite decide_True by lia. simpl.
  rewrite bool_decide_eq_false_2; [done|].
  intros Hnil. apply (f_equal length) in Hnil.
  rewrite length_drop in Hnil. simpl in Hnil. lia.
Qed.

Lemma decode_transaction_index_trailing payload :
  (8 < length payload)%nat ->
  decode_transaction_index failed_reader_is_exhausted
    (reader.of_payload payload)
  = (decode_failed, reader.mk (drop 8 payload) true).
Proof.
  intros Hlen.
  unfold decode_transaction_index, read_4_bytes_little_endian, read_bytes,
    is_exhausted, mbind, parse_bind, mret, parse_ret. simpl.
  rewrite decide_True by lia. simpl.
  rewrite decide_True by (rewrite length_drop; lia). simpl.
  rewrite drop_drop. simpl.
  rewrite bool_decide_eq_false_2; [done|].
  intros Hnil. apply (f_equal length) in Hnil.
  rewrite length_drop in Hnil. simpl in Hnil. lia.
Qed.

(** A row decoder delivers when the payload is a whole number of rows and
    fails when the last row is cut short. *)
Lemma run_rows_payload {A} (read_row : parse (A * bool)) k payload :
  (0 < k)%nat ->
  consumes k (fun res => res.2 = true) read_row ->
  exists o r',
    run_rows failed_reader_is_exhausted read_row (reader.of_payload payload)
    = Some (o, r')
    /\ ((length payload mod k)%nat = 0%nat ->
        r' = reader.mk [] true
        /\ exists rows, o = delivered rows
             /\ length rows = (length payload / k)%nat)
    /\ ((length payload mod k)%nat <> 0%nat ->
        o = decode_failed /\ reader.valid r' = false).
Proof.
  intros Hk Hrow. unfold run_rows, reader.of_payload.
  cbn [reader.remaining].
  destruct (read_rows_valid read_row k Hk Hrow (S (length payload)) payload
              []) as (o & r' & Hrun & Hwhole & Hcut); [lia|].
  exists o, r'. split; [done|]. split; [|done].
  intros Hz. destruct (Hwhole Hz) as (-> & rows & -> & Hrows).
  split; [done|]. by exists rows.
Qed.

Lemma run_decoder_cut_short d k payload :
  row_size d = Some k ->
  (length payload mod k)%nat <> 0%nat ->
  exists r', run d (reader.of_payload payload) = Some (decode_failed, r').
Proof.
  intros Hd Hcut. destruct d; try discriminate Hd; injection Hd as <-.
  - destruct (run_rows_payload validate_row 4 payload)
      as (o & r' & Hrun & _ & Hfail); [lia|apply consumes_validate_row|].
    destruct (Hfail Hcut) as [-> _]. exists r'.
    unfold run_decoder, decode_validate. by rewrite Hrun.
  - destruct (run_rows_payload stealth_row 84 payload)
      as (o & r' & Hrun & _ & Hfail); [lia|apply consumes_stealth_row|].
    destruct (Hfail Hcut) as [-> _]. exists r'.
    unfold run_decoder, decode_stealth. by rewrite Hrun.
  - destruct (run_rows_payload (history_row point_kind_of_byte) 49 payload)
      as (o & r' & Hrun & _ & Hfail); [lia|apply consumes_history_row|].
    destruct (Hfail Hcut) as [-> _]. exists r'.
    unfold run_decoder, decode_history. by rewrite Hrun.
  - destruct (run_rows_payload expanded_history_row 96 payload)
      as (o & r' & Hrun & _ & Hfail);
      [lia|apply consumes_expanded_history_row|].
    destruct (Hfail Hcut) as [-> _]. exists r'.
    unfold run_decoder, decode_expanded_history. by rewrite Hrun.
Qed.

(** Whole rows after a valid payload of a row decoder are rows of the
    payload: the decoder delivers them too. *)
Lemma run_decoder_whole_rows d k payload :
  row_size d = Some k ->
  (length payload mod k)%nat = 0%nat ->
  exists x, run d (reader.of_payload payload)
            = Some (delivered x, reader.mk [] true).
Proof.
  intros Hd Hwhole. destruct d; try discriminate Hd; injection Hd as <-.
  - destruct (run_rows_payload validate_row 4 payload)
      as (o & r' & Hrun & Hok & _); [lia|apply consumes_validate_row|].
    destruct (Hok Hwhole) as (-> & rows & -> & _).
    unfold run_decoder, decode_validate. rewrite Hrun. by eexists.
  - destruct (run_rows_payload stealth_row 84 payload)
      as (o & r' & Hrun & Hok & _); [lia|apply consumes_stealth_row|].
    destruct (Hok Hwhole) as (-> & rows & -> & _).
    unfold run_decoder, decode_stealth. rewrite Hrun. by eexists.
  - destruct (run_rows_payload (history_row point_kind_of_byte) 49 payload)
      as (o & r' & Hrun & Hok & _); [lia|apply consumes_history_row|].
    destruct (Hok Hwhole) as (-> & rows & -> & _).
    unfold run_decoder, decode_history. rewrite Hrun. by eexists.
  - destruct (run_rows_payload expanded_history_row 96 payload)
      as (o & r' & Hrun & Hok & _);
      [lia|apply consumes_expanded_history_row|].
    destruct (Hok Hwhole) as (-> & rows & -> & _).
    unfold run_decoder, decode_expanded_history. rewrite Hrun. by eexists.
Qed.
End DecoderProperties.

(** * The properties of the specification *)

(** ** History reconciliation *)

(** C1 (amended).  [expand] over compact history rows is the two-pass
    reconciliation of the specification ([spec_expand]): every Spend row
    updates the first row, in order, whose parked checksum equals its
    [previous_checksum] and whose spend hash is still null, overwriting the
    spend point and the spend height.  For one Output row and one Spend row
    with [previous_checksum] equal to the output's checksum, in either
    order, the single result row carries the spend row's point, and the
    spend row's height when the hash of that point is not the null hash; a
    spend point with the null hash leaves the row marked unspent, with the
    max 32-bit height.  No result row keeps a parked checksum: every row is
    either unspent with the max 32-bit height or carries the point and the
    height of one Spend row. *)
Theorem expand_two_pass_reconciliation (checksum : point.t -> N) :
  (forall compact, expand checksum compact = spec_expand checksum compact)
  /\ (forall output spend,
        history_compact.kind output = point_kind.output ->
        history_compact.kind spend = point_kind.spend ->
        history_compact.previous_checksum spend
          = checksum (history_compact.point output) ->
        let row :=
          {| history.output := history_compact.point output;
             history.output_height := history_compact.height output;
             history.value := history_compact.value output;
             history.spend := history_compact.point spend;
             history.spend_height :=
               if bool_decide
                    (point.hash (history_compact.point spend) = null_hash)
               then max_uint32
               else history_compact.height spend |} in
        expand checksum [output; spend] = [row]
        /\ expand checksum [spend; output] = [row])
  /\ (forall compact row,
        row ∈ expand checksum compact -> resolved compact row).
Proof.
  split; [apply expand_spec|]. split; [|apply expand_resolved].
  intros output spend Ho Hs Hsum row.
  destruct (expand_checked_output_spend checksum output spend Ho Hs Hsum)
    as [Hfirst Hsecond].
  unfold expand. rewrite Hsecond, Hfirst. simpl.
  unfold clear_checksum, set_spend, row. simpl.
  by case_bool_decide.
Qed.

Lemma expand_two_pass_reconciliation_witness :
  history_compact.kind sample_output = point_kind.output
  /\ history_compact.kind sample_spend = point_kind.spend
  /\ history_compact.previous_checksum sample_spend
     = sample_checksum (history_compact.point sample_output)
  /\ expand sample_checksum [sample_output; sample_spend]
     = [ {| history.output := history_compact.point sample_output;
            history.output_height := 100;
            history.value := 5000;
            history.spend := history_compact.point sample_spend;
            history.spend_height := 120 |} ].
Proof.
  split; [reflexivity|]. split; [reflexivity|]. split; [reflexivity|].
  exact (proj1 (proj1 (proj2 (expand_two_pass_reconciliation sample_checksum))
                  sample_output sample_spend eq_refl eq_refl eq_refl)).
Defined.

(** The claim without the proviso on the hash of the spend point fails: a
    Spend row whose point has the null hash matches the output, but the
    final pass then takes the row for unspent and overwrites the height. *)
Lemma expand_null_hash_spend_counterexample :
  history_compact.kind sample_output = point_kind.output
  /\ history_compact.kind sample_null_spend = point_kind.spend
  /\ history_compact.previous_checksum sample_null_spend
     = sample_checksum (history_compact.point sample_output)
  /\ history_compact.height sample_null_spend = 120
  /\ history.spend_height <$>
       expand sample_checksum [sample_output; sample_null_spend]
     = [max_uint32]
  /\ history.spend_height <$>
       expand sample_checksum [sample_output; sample_null_spend]
     <> [history_compact.height sample_null_spend].
Proof. repeat split; done. Qed.

(** C2.  An Output row for which no Spend row is left yields the unspent
    row: when the Spend rows with the output's checksum as
    [previous_checksum] are no more than the Output rows with that checksum
    that stand before it (none, when there is no such Spend row at all), the
    result row of that output, at the output's position among the Output
    rows, has spend = {null hash, max 32-bit index} and spend height = max
    32-bit value. *)
Theorem expand_unmatched_output_unspent (checksum : point.t -> N)
    (before : list history_compact.t) (output : history_compact.t)
    (after : list history_compact.t) :
  history_compact.kind output = point_kind.output ->
  (length (filter (asks_for (checksum (history_compact.point output)))
             (before ++ output :: after))
   <= length (filter
        (fun row => history_compact.kind row = point_kind.output
                    /\ checksum (history_compact.point row)
                       = checksum (history_compact.point output))
        before))%nat ->
  expand checksum (before ++ output :: after)
    !! length (filter
         (fun row => history_compact.kind row = point_kind.output) before)
  = Some {| history.output := history_compact.point output;
            history.output_height := history_compact.height output;
            history.value := history_compact.value output;
            history.spend := point.mk null_hash max_uint32;
            history.spend_height := max_uint32 |}.
Proof. apply expand_keeps_unspent. Qed.

Lemma expand_unmatched_output_unspent_witness :
  expand sample_checksum [sample_output; sample_output; sample_spend] !! 1%nat
  = Some {| history.output := history_compact.point sample_output;
            history.output_height := 100;
            history.value := 5000;
            history.spend := point.mk null_hash max_uint32;
            history.spend_height := max_uint32 |}.
Proof.
  apply (expand_unmatched_output_unspent sample_checksum
           [sample_output] sample_output [sample_spend]).
  - reflexivity.
  - vm_compute. lia.
Defined.

(** C9.  At a match the assertion [row.value == spend.value] compares the
    value of the output with the storage the spend row shares with
    [previous_checksum]: for an output and the spend that consumes it, it
    holds exactly when the output's value equals the output's own
    checksum. *)
Theorem expand_assertion_compares_value_with_checksum
    (checksum : point.t -> N) (output spend : history_compact.t) :
  history_compact.kind output = point_kind.output ->
  history_compact.kind spend = point_kind.spend ->
  history_compact.previous_checksum spend
    = checksum (history_compact.point output) ->
  expand_assertions_hold checksum [output; spend]
  = (history_compact.value output =? checksum (history_compact.point output)).
Proof.
  intros Ho Hs Hsum.
  destruct (expand_checked_output_spend checksum output spend Ho Hs Hsum)
    as [Hfirst _].
  unfold expand_assertions_hold. rewrite Hfirst. simpl.
  by rewrite <- Hsum.
Qed.

Lemma expand_assertion_compares_value_with_checksum_witness :
  history_compact.kind sample_output = point_kind.output
  /\ history_compact.kind sample_spend = point_kind.spend
  /\ history_compact.previous_checksum sample_spend
     = sample_checksum (history_compact.point sample_output)
  /\ expand_assertions_hold sample_checksum [sample_output; sample_spend]
     = false.
Proof.
  split; [reflexivity|]. split; [reflexivity|]. split; [reflexivity|].
  rewrite (expand_assertion_compares_value_with_checksum sample_checksum
             sample_output sample_spend eq_refl eq_refl eq_refl).
  reflexivity.
Defined.

(** C10.  The result of [expand] has exactly one row per Output row, in
    the order of the Output rows, with the output's point, height and
    value; and a Spend row that matches none of the rows accumulated when
    its turn comes is dropped: the result, and the state of the assertions,
    are those of the list without it. *)
Theorem expand_one_row_per_output (checksum : point.t -> N) :
  (forall compact,
     output_fields <$> expand checksum compact
     = compact_fields <$>
         filter (fun row => history_compact.kind row = point_kind.output)
           compact)
  /\ (forall compact,
        length (expand checksum compact)
        = length (filter
            (fun row => history_compact.kind row = point_kind.output)
            compact))
  /\ (forall before spend after,
        history_compact.kind spend = point_kind.spend ->
        Forall (fun row => spend_matches spend row = false)
          (reconcile_spends before
             (collect_outputs checksum (before ++ spend :: after), true)).1 ->
        expand_checked checksum (before ++ spend :: after)
        = expand_checked checksum (before ++ after)).
Proof.
  split; [apply expand_output_fields|]. split.
  - intros compact.
    rewrite <- (length_fmap output_fields), expand_output_fields.
    by rewrite length_fmap.
  - apply expand_checked_drop_spend.
Qed.

Lemma expand_one_row_per_output_witness :
  expand_checked sample_checksum [sample_output; sample_stray_spend]
  = expand_checked sample_checksum [sample_output].
Proof.
  apply (proj2 (proj2 (expand_one_row_per_output sample_checksum))
           [sample_output] sample_stray_spend []).
  - reflexivity.
  - apply Forall_cons. split; [reflexivity|]. apply Forall_nil. done.
Defined.

(** ** Stealth expansion *)

(** C5.  [expand] over compact stealth rows maps the rows one to one and in
    order; each result row has the sign byte followed by the transmitted
    ephemeral-key hash as its ephemeral public key, the byte-reversed
    public-key hash, and the transaction hash unchanged. *)
Theorem expand_stealth_rows (compact : list stealth_compact.t) :
  expand_stealth compact
  = (fun input =>
       {| stealth.ephemeral_public_key :=
            ephemeral_public_key_sign
              :: stealth_compact.ephemeral_public_key_hash input;
          stealth.public_key_hash :=
            rev (stealth_compact.public_key_hash input);
          stealth.transaction_hash :=
            stealth_compact.transaction_hash input |}) <$> compact.
Proof. apply expand_stealth_fmap. Qed.

(** ** Requests *)

(** C6.  [blockchain_fetch_stealth] and the prefix overload of
    [address_subscribe] send their request for a prefix of at most 255 bits,
    and for a prefix of 256 bits or more call the error handler instead:
    no request is made, so no decoder is bound. *)
Theorem prefix_size_validation (prefix : binary.t) (from_height : N)
    (discriminator : subscribe_type.t) :
  (binary.size prefix <= 255 ->
   blockchain_fetch_stealth prefix from_height
   = sent (send_request "blockchain.fetch_stealth"
             (to_uint8 (binary.size prefix)
                :: binary.blocks prefix ++ to_little_endian 4 from_height)
             bind_decode_stealth)
   /\ address_subscribe discriminator prefix
      = sent (send_request "address.subscribe"
                (to_uint8 (subscribe_type.to_N discriminator)
                   :: to_uint8 (binary.size prefix) :: binary.blocks prefix)
                bind_decode_empty)
   /\ Byte.to_N (to_uint8 (binary.size prefix)) = binary.size prefix)
  /\ (256 <= binary.size prefix ->
      blockchain_fetch_stealth prefix from_height = on_error bad_stream
      /\ address_subscribe discriminator prefix = on_error bad_stream
      /\ bound_decoder (blockchain_fetch_stealth prefix from_height) = None
      /\ bound_decoder (address_subscribe discriminator prefix) = None).
Proof.
  unfold blockchain_fetch_stealth, address_subscribe, max_uint8. split.
  - intros Hsize. rewrite !decide_False by lia.
    unfold build_chunk, to_array. simpl. rewrite ?app_nil_r.
    split; [done|]. split; [done|].
    rewrite to_uint8_to_N. apply N.mod_small. lia.
  - intros Hsize. by rewrite !decide_True by lia.
Qed.

Lemma prefix_size_validation_witness :
  (exists req,
     blockchain_fetch_stealth (binary.mk 255 (replicate 32 Byte.xff)) 7
     = sent req)
  /\ address_subscribe subscribe_type.stealth
       (binary.mk 256 (replicate 32 Byte.xff))
     = on_error bad_stream.
Proof.
  split.
  - eexists.
    apply (proj1 (prefix_size_validation
                    (binary.mk 255 (replicate 32 Byte.xff)) 7
                    subscribe_type.stealth)).
    simpl. lia.
  - apply (proj2 (prefix_size_validation
                    (binary.mk 256 (replicate 32 Byte.xff)) 7
                    subscribe_type.stealth)).
    simpl. lia.
Defined.

(** C7.  The payload of [blockchain.fetch_history] is the version byte,
    the address hash byte-reversed, and the from-height as four
    little-endian bytes: 25 bytes for a 20-byte hash.  For version 0, hash
    [01..14] and from-height 100 it is 00, 14 .. 01, 64 00 00 00. *)
Theorem blockchain_fetch_history_payload (address : payment_address.t)
    (from_height : N) :
  blockchain_fetch_history address from_height
  = sent (send_request "blockchain.fetch_history"
            (payment_address.version address
               :: rev (payment_address.hash address)
               ++ to_little_endian 4 from_height)
            bind_decode_history)
  /\ length (to_little_endian 4 from_height) = 4%nat
  /\ (from_height <= max_uint32 ->
      from_little_endian (to_little_endian 4 from_height) = from_height)
  /\ (length (payment_address.hash address) = short_hash_size ->
      length (payment_address.version address
                :: rev (payment_address.hash address)
                ++ to_little_endian 4 from_height) = 25%nat)
  /\ blockchain_fetch_history sample_address 100
     = sent (send_request "blockchain.fetch_history"
               [ Byte.x00;
                 Byte.x14; Byte.x13; Byte.x12; Byte.x11; Byte.x10;
                 Byte.x0f; Byte.x0e; Byte.x0d; Byte.x0c; Byte.x0b;
                 Byte.x0a; Byte.x09; Byte.x08; Byte.x07; Byte.x06;
                 Byte.x05; Byte.x04; Byte.x03; Byte.x02; Byte.x01;
                 Byte.x64; Byte.x00; Byte.x00; Byte.x00 ]
               bind_decode_history).
Proof.
  split.
  { unfold blockchain_fetch_history, build_chunk, to_array, reverse. simpl.
    by rewrite ?app_nil_r. }
  split; [apply to_little_endian_length|].
  split; [apply from_to_little_endian_4|].
  split; [|reflexivity].
  intros Hhash. simpl.
  rewrite length_app, length_rev, Hhash. reflexivity.
Qed.

Lemma blockchain_fetch_history_payload_witness :
  100 <= max_uint32
  /\ length (payment_address.hash sample_address) = short_hash_size
  /\ from_little_endian (to_little_endian 4 100) = 100
  /\ length (payment_address.version sample_address
               :: rev (payment_address.hash sample_address)
               ++ to_little_endian 4 100) = 25%nat.
Proof.
  assert (100 <= max_uint32) as Hle by (unfold max_uint32; lia).
  split; [exact Hle|]. split; [reflexivity|]. split.
  - exact (proj1 (proj2 (proj2
             (blockchain_fetch_history_payload sample_address 100))) Hle).
  - exact (proj1 (proj2 (proj2 (proj2
             (blockchain_fetch_history_payload sample_address 100))))
             eq_refl).
Defined.

(** ** Response decoders *)

(** C3.  Every decoder returns, and none calls its handler while bytes are
    left unread after the fields were read successfully: a decoder that
    ends with a valid reader and unread bytes has failed.  So
    [decode_empty] fails on a payload that is not empty, [decode_height] on
    more than 4 bytes, [decode_transaction_index] on more than 8, and a row
    decoder on a payload whose last row is cut short. *)
Theorem decoders_fail_on_unread_bytes (failed_reader_is_exhausted : bool)
    (checksum : point.t -> N) (point_kind_of_byte : byte -> point_kind.t)
    (transaction header : Type)
    (transaction_from_data : parse (transaction * bool))
    (header_from_data : parse (header * bool)) :
  let run :=
    run_decoder failed_reader_is_exhausted checksum point_kind_of_byte
      transaction header transaction_from_data header_from_data in
  (forall d r, is_Some (run d r))
  /\ (forall d r o r',
        run d r = Some (o, r') ->
        reader.valid r' = true ->
        reader.remaining r' <> [] ->
        o = decode_failed)
  /\ (forall payload,
        payload <> [] ->
        (decode_empty failed_reader_is_exhausted
           (reader.of_payload payload)).1 = decode_failed)
  /\ (forall payload,
        (4 < length payload)%nat ->
        (decode_height failed_reader_is_exhausted
           (reader.of_payload payload)).1 = decode_failed)
  /\ (forall payload,
        (8 < length payload)%nat ->
        (decode_transaction_index failed_reader_is_exhausted
           (reader.of_payload payload)).1 = decode_failed)
  /\ (forall d k payload,
        row_size d = Some k ->
        (length payload mod k)%nat <> 0%nat ->
        exists r', run d (reader.of_payload payload)
                   = Some (decode_failed, r')).
Proof.
  intros run. split; [apply run_decoder_terminates|].
  split; [apply run_decoder_leftover|].
  split; [intros payload H; by rewrite decode_empty_trailing|].
  split; [intros payload H; by rewrite decode_height_trailing|].
  split; [intros payload H; by rewrite decode_transaction_index_trailing|].
  apply run_decoder_cut_short.
Qed.

Lemma decoders_fail_on_unread_bytes_witness :
  let payload := [Byte.x2a; Byte.x00; Byte.x00; Byte.x00; Byte.x09] in
  exists o r',
    run_decoder true sample_checksum sample_point_kind unit unit
      sample_from_data sample_from_data bind_decode_height
      (reader.of_payload payload) = Some (o, r')
    /\ reader.valid r' = true
    /\ reader.remaining r' = [Byte.x09]
    /\ o = decode_failed.
Proof.
  intros payload.
  exists decode_failed, (reader.mk [Byte.x09] true).
  split; [reflexivity|]. split; [reflexivity|]. split; [reflexivity|].
  apply (proj1 (proj2 (decoders_fail_on_unread_bytes true sample_checksum
                         sample_point_kind unit unit sample_from_data
                         sample_from_data))
           bind_decode_height (reader.of_payload payload)
           decode_failed (reader.mk [Byte.x09] true)).
  - reflexivity.
  - reflexivity.
  - simpl. discriminate.
Defined.

(** C4.  With a reader whose [is_exhausted] holds once a read has failed,
    [decode_height] on the two bytes 01 02 and [decode_transaction_index]
    on the five bytes 01 .. 05 call the handler with the zero-padded bytes
    and return [true]; [decode_validate], which tests the reader after the
    read, fails on the same two bytes.  With a reader whose [is_exhausted]
    does not hold after a failed read, the first two fail as well. *)
Theorem decode_height_truncated_payload :
  decode_height true (reader.of_payload [Byte.x01; Byte.x02])
  = (delivered 513, reader.mk [] false)
  /\ decode_transaction_index true
       (reader.of_payload [Byte.x01; Byte.x02; Byte.x03; Byte.x04; Byte.x05])
     = (delivered (67305985, 5), reader.mk [] false)
  /\ decode_validate true (reader.of_payload [Byte.x01; Byte.x02])
     = Some (decode_failed, reader.mk [] false)
  /\ decode_height false (reader.of_payload [Byte.x01; Byte.x02])
     = (decode_failed, reader.mk [] false)
  /\ decode_transaction_index false
       (reader.of_payload [Byte.x01; Byte.x02; Byte.x03; Byte.x04; Byte.x05])
     = (decode_failed, reader.mk [] false).
Proof. repeat split; reflexivity. Qed.

(** * Further properties of the code *)

(** ** History reconciliation *)

Section HistoryExpandFurther.
Variable checksum : point.t -> N.

Lemma expand_unfold compact :
  expand checksum compact
  = clear_checksum <$>
      (reconcile_spends compact (collect_outputs checksum compact, true)).1.
Proof.
  unfold expand, expand_checked.
  by destruct (reconcile_spends _ _) as [result ok].
Qed.

Lemma reconcile_spends_app todo1 todo2 state :
  reconcile_spends (todo1 ++ todo2) state
  = reconcile_spends todo2 (reconcile_spends todo1 state).
Proof. unfold reconcile_spends. apply fold_left_app. Qed.

(** *** Rows a scan leaves alone *)

Lemma scan_rows_lookup_unmatched spend rows i row :
  rows !! i = Some row ->
  spend_matches spend row = false ->
  (scan_rows spend rows).1 !! i = Some row.
Proof.
  revert i. induction rows as [|head rows IH]; intros i Hi Hm; [done|].
  simpl. destruct (spend_matches spend head) eqn:Hhead; simpl.
  - destruct i as [|i]; simpl in *; [|done]. congruence.
  - destruct (scan_rows spend rows) as [rest ok]. simpl in *.
    destruct i as [|i]; simpl in *; [done|]. by apply IH.
Qed.

Lemma spent_row_never_matches spend row :
  point.hash (history.spend row) <> null_hash ->
  spend_matches spend row = false.
Proof. intros Hne. apply spend_matches_not_parked. by intros [_ ?]. Qed.

Lemma reconcile_spends_lookup_spent todo state i row :
  state.1 !! i = Some row ->
  point.hash (history.spend row) <> null_hash ->
  (reconcile_spends todo state).1 !! i = Some row.
Proof.
  unfold reconcile_spends.
  revert state. induction todo as [|spend todo IH]; intros state Hi Hne.
  - done.
  - simpl. apply IH; [|done]. unfold apply_spend. case_decide; [|done].
    pose proof (scan_rows_lookup_unmatched spend state.1 i row Hi
                  (spent_row_never_matches spend row Hne)) as Hs.
    by destruct (scan_rows spend state.1).
Qed.

(** *** Counting the rows parked under a checksum *)

Lemma filter_length_zero_Forall {A} (P : A -> Prop)
    `{forall x, Decision (P x)} (l : list A) :
  length (filter P l) = 0%nat -> Forall (fun x => ~ P x) l.
Proof.
  induction l as [|x l IH]; [constructor|].
  rewrite filter_cons. destruct (decide (P x)); simpl; [done|].
  intros Hlen. constructor; [done|]. by apply IH.
Qed.

Lemma set_spend_not_parked sum spend row :
  point.hash (history_compact.point spend) <> null_hash ->
  ~ parked sum (set_spend spend row).
Proof. intros Hne [_ Hnull]. done. Qed.

Lemma scan_rows_parked_other sum spend rows :
  point.hash (history_compact.point spend) <> null_hash ->
  history_compact.previous_checksum spend <> sum ->
  length (filter (parked sum) (scan_rows spend rows).1)
  = length (filter (parked sum) rows).
Proof.
  intros Hne Hsum. induction rows as [|row rows IH]; simpl; [done|].
  destruct (spend_matches spend row) eqn:Hm; simpl.
  - apply spend_matches_parked in Hm. rewrite !filter_cons.
    rewrite decide_False by (by apply set_spend_not_parked).
    rewrite decide_False; [done|].
    intros [Hrow _]. destruct Hm as [Hm _]. congruence.
  - destruct (scan_rows spend rows) as [rest ok]. simpl in *.
    rewrite !filter_cons. destruct (decide (parked sum row)); simpl; lia.
Qed.

Lemma scan_rows_parked_same spend rows :
  point.hash (history_compact.point spend) <> null_hash ->
  Exists (parked (history_compact.previous_checksum spend)) rows ->
  S (length (filter (parked (history_compact.previous_checksum spend))
               (scan_rows spend rows).1))
  = length (filter (parked (history_compact.previous_checksum spend)) rows).
Proof.
  intros Hne. induction rows as [|row rows IH]; intros Hex; simpl.
  - by apply Exists_nil in Hex.
  - destruct (spend_matches spend row) eqn:Hm; simpl.
    + apply spend_matches_parked in Hm. rewrite !filter_cons.
      rewrite decide_False by (by apply set_spend_not_parked).
      by rewrite decide_True.
    + apply spend_matches_not_parked in Hm.
      apply Exists_cons in Hex as [Hrow|Hex]; [done|].
      specialize (IH Hex).
      destruct (scan_rows spend rows) as [rest ok]. simpl in *.
      rewrite !filter_cons, !decide_False by done. done.
Qed.

Lemma parked_unspent_rows_count sum outputs :
  length (filter (parked sum) (unspent_row checksum <$> outputs))
  = length (filter
      (fun row => checksum (history_compact.point row) = sum) outputs).
Proof.
  induction outputs as [|row outputs IH]; [done|].
  rewrite fmap_cons, !filter_cons.
  destruct (decide (checksum (history_compact.point row) = sum)) as [Hs|Hs].
  - rewrite decide_True by done. simpl. by f_equal.
  - rewrite decide_False by (intros [? _]; done). done.
Qed.

(** Spend points with the null hash aside, the rows parked under [sum]
    before a parked row are taken one by one by the spends that ask for
    [sum], and the row itself stays until they are used up. *)
Lemma reconcile_spends_until_turn sum row todo :
  parked sum row ->
  spends_hash_not_null todo ->
  forall state before after,
    state.1 = before ++ row :: after ->
    (length (filter (asks_for sum) todo)
     <= length (filter (parked sum) before))%nat ->
    exists before' after',
      (reconcile_spends todo state).1 = before' ++ row :: after'
      /\ length before' = length before
      /\ (length (filter (parked sum) before')
          + length (filter (asks_for sum) todo)
          = length (filter (parked sum) before))%nat.
Proof.
  intros Hrow. unfold reconcile_spends.
  induction todo as [|spend todo IH]; intros Hnull state before after Hst Hle.
  - simpl. exists before, after. simpl. split; [done|]. split; [done|lia].
  - assert (spends_hash_not_null todo) as Hnull'.
    { intros s Hs. apply Hnull. by right. }
    simpl. rewrite filter_cons in Hle |- *. unfold apply_spend.
    destruct (decide (history_compact.kind spend = point_kind.spend))
      as [Hkind|Hkind].
    2:{ rewrite decide_False in Hle |- * by (intros [? _]; done).
        by apply (IH Hnull' state before after). }
    assert (point.hash (history_compact.point spend) <> null_hash) as Hne.
    { apply Hnull; [by left|done]. }
    rewrite Hst.
    destruct (decide (history_compact.previous_checksum spend = sum))
      as [Hsum|Hsum].
    + rewrite decide_True in Hle |- * by done. simpl in Hle |- *.
      assert (Exists (parked (history_compact.previous_checksum spend))
                before) as Hex.
      { rewrite Hsum. apply (filter_length_pos_Exists (parked sum)). lia. }
      pose proof (scan_rows_app_match spend before (row :: after) Hex)
        as Hscan.
      pose proof (scan_rows_parked_same spend before Hne Hex) as Hcount.
      pose proof (scan_rows_length spend before) as Hlen.
      rewrite Hsum in Hcount.
      destruct (scan_rows spend (before ++ row :: after)) as [rows' ok].
      simpl in Hscan.
      destruct (IH Hnull' (rows', state.2 && ok) (scan_rows spend before).1
                  after Hscan) as (before' & after' & Hfinal & Hlen' & Hc).
      { lia. }
      exists before', after'. split; [done|]. split; lia.
    + rewrite decide_False in Hle |- * by (intros [_ ?]; done).
      destruct (decide (Exists
        (parked (history_compact.previous_checksum spend)) before))
        as [Hex|Hno].
      * pose proof (scan_rows_app_match spend before (row :: after) Hex)
          as Hscan.
        pose proof (scan_rows_parked_other sum spend before Hne Hsum)
          as Hcount.
        pose proof (scan_rows_length spend before) as Hlen.
        destruct (scan_rows spend (before ++ row :: after)) as [rows' ok].
        simpl in Hscan.
        destruct (IH Hnull' (rows', state.2 && ok)
                    (scan_rows spend before).1 after Hscan)
          as (before' & after' & Hfinal & Hlen' & Hc).
        { lia. }
        exists before', after'. split; [done|]. split; lia.
      * apply not_Exists_Forall in Hno; [|intros x; apply _].
        pose proof (scan_rows_app_no_match spend before (row :: after) Hno)
          as Hscan.
        simpl in Hscan.
        assert (spend_matches spend row = false) as Hm.
        { apply spend_matches_not_parked. intros [Hh _].
          destruct Hrow as [Hrow _]. congruence. }
        rewrite Hm in Hscan.
        destruct (scan_rows spend (before ++ row :: after)) as [rows' ok].
        destruct (scan_rows spend after) as [after1 ok1].
        simpl in Hscan.
        by apply (IH Hnull' (rows', state.2 && ok) before after1).
Qed.

Lemma filter_lookup_split {A} (P : A -> Prop) `{forall x, Decision (P x)}
    (l : list A) j x :
  filter P l !! j = Some x ->
  exists l1 l2, l = l1 ++ x :: l2 /\ length (filter P l1) = j /\ P x.
Proof.
  revert j. induction l as [|y l IH]; intros j; [done|].
  rewrite filter_cons. destruct (decide (P y)) as [Hy|Hy].
  - destruct j as [|j]; simpl.
    + intros [= ->]. by exists [], l.
    + intros Hj. destruct (IH j Hj) as (l1 & l2 & -> & Hlen & Hx).
      exists (y :: l1), l2. rewrite filter_cons, decide_True by done.
      simpl. split; [done|]. split; [lia|done].
  - intros Hj. destruct (IH j Hj) as (l1 & l2 & -> & Hlen & Hx).
    exists (y :: l1), l2. rewrite filter_cons, decide_False by done.
    done.
Qed.

(** *** The k-th output of a checksum and the k-th spend that asks for it *)

Lemma expand_pairs_in_order_aux compact i output j spend :
  filter (fun row => history_compact.kind row = point_kind.output) compact
    !! i = Some output ->
  length (filter
    (fun row => checksum (history_compact.point row)
                = checksum (history_compact.point output))
    (take i (filter
       (fun row => history_compact.kind row = point_kind.output) compact)))
  = j ->
  filter (asks_for (checksum (history_compact.point output))) compact !! j
  = Some spend ->
  spends_hash_not_null compact ->
  expand checksum compact !! i = Some (spent_result output spend).
Proof.
  intros Hout Hj Hspend Hnull.
  set (sum := checksum (history_compact.point output)) in *.
  set (outputs := filter
    (fun row => history_compact.kind row = point_kind.output) compact) in *.
  destruct (filter_lookup_split _ compact j spend Hspend)
    as (l1 & l2 & Hcompact & Hl1 & [Hkind Hprev]).
  assert (i < length outputs)%nat as Hi by (by eapply lookup_lt_Some).
  assert (parked sum (unspent_row checksum output)) as Hparked by done.
  assert (point.hash (history_compact.point spend) <> null_hash) as Hne.
  { apply Hnull; [|done]. rewrite Hcompact. apply elem_of_app. right.
    by left. }
  assert (spends_hash_not_null l1) as Hnull1.
  { intros s Hs. apply Hnull. rewrite Hcompact. apply elem_of_app.
    by left. }
  rewrite expand_unfold.
  assert (collect_outputs checksum compact
          = (unspent_row checksum <$> take i outputs)
              ++ unspent_row checksum output
              :: (unspent_row checksum <$> drop (S i) outputs)) as Hrows0.
  { rewrite collect_outputs_spec. unfold spec_first_pass. fold outputs.
    rewrite <- (take_drop_middle outputs i output Hout) at 1.
    by rewrite fmap_app, fmap_cons. }
  remember (collect_outputs checksum compact) as rows0 eqn:Heq. clear Heq.
  rewrite Hcompact, reconcile_spends_app.
  change (reconcile_spends (spend :: l2) ?st)
    with (reconcile_spends l2 (apply_spend st spend)).
  destruct (reconcile_spends_until_turn sum (unspent_row checksum output) l1
              Hparked Hnull1 (rows0, true) _ _ Hrows0)
    as (before' & after' & Hst1 & Hlen1 & Hcount1).
  { rewrite parked_unspent_rows_count. fold sum in Hj. lia. }
  rewrite parked_unspent_rows_count in Hcount1. fold sum in Hj.
  assert (Forall (fun row => ~ parked sum row) before') as Hno.
  { apply (filter_length_zero_Forall (parked sum)). lia. }
  rewrite length_fmap, length_take in Hlen1.
  destruct (reconcile_spends l1 (rows0, true)) as [rows1 ok1].
  simpl in Hst1. subst rows1.
  unfold apply_spend at 1. rewrite decide_True by done. simpl.
  rewrite <- Hprev in Hno.
  pose proof (scan_rows_app_no_match spend before'
                (unspent_row checksum output :: after') Hno) as Hscan.
  simpl in Hscan. rewrite spend_matches_unspent_row in Hscan by done.
  destruct (scan_rows spend (before' ++ unspent_row checksum output :: after'))
    as [rows2 ok2]. simpl in Hscan. subst rows2.
  rewrite list_lookup_fmap.
  rewrite (reconcile_spends_lookup_spent l2 _ i
             (set_spend spend (unspent_row checksum output))).
  - simpl. unfold clear_checksum. simpl.
    by rewrite bool_decide_eq_false_2.
  - simpl. apply list_lookup_middle. lia.
  - done.
Qed.

(** *** The order of outputs and spends among each other *)

Lemma filter_filter_same {A} (P : A -> Prop) `{forall x, Decision (P x)}
    (l : list A) :
  filter P (filter P l) = filter P l.
Proof.
  induction l as [|x l IH]; [done|].
  rewrite filter_cons. destruct (decide (P x)) as [Hx|Hx]; [|done].
  by rewrite filter_cons, decide_True, IH.
Qed.

Lemma filter_filter_disjoint {A} (P Q : A -> Prop)
    `{forall x, Decision (P x)} `{forall x, Decision (Q x)} (l : list A) :
  (forall x, P x -> Q x -> False) ->
  filter P (filter Q l) = [].
Proof.
  intros Hdis. induction l as [|x l IH]; [done|].
  rewrite filter_cons. destruct (decide (Q x)) as [Hx|Hx]; [|done].
  rewrite filter_cons, decide_False; [done|]. intros HP. by eapply Hdis.
Qed.

Lemma reconcile_spends_filter todo state :
  reconcile_spends todo state
  = reconcile_spends
      (filter (fun row => history_compact.kind row = point_kind.spend) todo)
      state.
Proof.
  unfold reconcile_spends.
  revert state. induction todo as [|row todo IH]; intros state; [done|].
  rewrite filter_cons. simpl. case_decide as Hkind.
  - simpl. apply IH.
  - rewrite IH. f_equal. unfold apply_spend. by rewrite decide_False.
Qed.

Lemma expand_checked_filtered compact :
  expand_checked checksum compact
  = (let '(result, ok) :=
       reconcile_spends
         (filter (fun row => history_compact.kind row = point_kind.spend)
            compact)
         (unspent_row checksum <$>
            filter (fun row => history_compact.kind row = point_kind.output)
              compact, true) in
     (clear_checksum <$> result, ok)).
Proof.
  unfold expand_checked.
  by rewrite reconcile_spends_filter, collect_outputs_spec.
Qed.

(** *** Spends that ask for no output of the list *)

Lemma reconcile_spends_no_match todo rows ok :
  Forall (fun spend =>
            history_compact.kind spend = point_kind.spend ->
            Forall (fun row => spend_matches spend row = false) rows) todo ->
  reconcile_spends todo (rows, ok) = (rows, ok).
Proof.
  unfold reconcile_spends. induction 1 as [|spend todo Hspend Htodo IH].
  - done.
  - simpl. unfold apply_spend at 2. simpl. case_decide as Hkind; [|done].
    rewrite (scan_rows_no_match spend rows) by auto.
    by rewrite andb_true_r.
Qed.

(** *** How many rows get a spend *)

Lemma scan_rows_spent_count spend rows :
  (length (filter is_spent (scan_rows spend rows).1)
   <= S (length (filter is_spent rows)))%nat.
Proof.
  induction rows as [|row rows IH]; simpl; [lia|].
  destruct (spend_matches spend row) eqn:Hm; simpl.
  - rewrite !filter_cons.
    destruct (decide (is_spent (set_spend spend row)));
      destruct (decide (is_spent row)); simpl; lia.
  - destruct (scan_rows spend rows) as [rest ok]. simpl in *.
    rewrite !filter_cons. destruct (decide (is_spent row)); simpl; lia.
Qed.

Lemma reconcile_spends_spent_count todo state :
  (length (filter is_spent (reconcile_spends todo state).1)
   <= length (filter is_spent state.1)
      + length (filter
          (fun row => history_compact.kind row = point_kind.spend) todo))%nat.
Proof.
  unfold reconcile_spends.
  revert state. induction todo as [|spend todo IH]; intros state.
  - simpl. lia.
  - simpl. etrans; [apply IH|]. rewrite filter_cons. unfold apply_spend.
    case_decide as Hkind; [|lia].
    pose proof (scan_rows_spent_count spend state.1) as Hs.
    destruct (scan_rows spend state.1) as [rows' ok]. simpl in *. lia.
Qed.

Lemma clear_checksum_spent_count rows :
  length (filter is_spent (clear_checksum <$> rows))
  = length (filter is_spent rows).
Proof.
  induction rows as [|row rows IH]; [done|].
  rewrite fmap_cons, !filter_cons.
  assert (is_spent (clear_checksum row) <-> is_spent row) as Hiff.
  { unfold is_spent, clear_checksum. by case_bool_decide. }
  destruct (decide (is_spent row)) as [Hrow|Hrow].
  - rewrite decide_True by (by apply Hiff). simpl. by f_equal.
  - rewrite decide_False by (by rewrite Hiff). done.
Qed.

Lemma unspent_rows_spent_count outputs :
  length (filter is_spent (unspent_row checksum <$> outputs)) = 0%nat.
Proof.
  induction outputs as [|row outputs IH]; [done|].
  rewrite fmap_cons, filter_cons, decide_False; [done|].
  intros Hspent. by apply Hspent.
Qed.
End HistoryExpandFurther.

(** X1.  When no Spend row has the null hash as the hash of its point,
    outputs and spends of one checksum are paired in order: the output at
    position [i] among the Output rows, with [j] Output rows of the same
    checksum before it, is resolved with the [j]-th Spend row that asks for
    that checksum. *)
Theorem expand_pairs_in_order (checksum : point.t -> N)
    (compact : list history_compact.t) (i : nat)
    (output : history_compact.t) (j : nat) (spend : history_compact.t) :
  filter (fun row => history_compact.kind row = point_kind.output) compact
    !! i = Some output ->
  length (filter
    (fun row => checksum (history_compact.point row)
                = checksum (history_compact.point output))
    (take i (filter
       (fun row => history_compact.kind row = point_kind.output) compact)))
  = j ->
  filter (asks_for (checksum (history_compact.point output))) compact !! j
  = Some spend ->
  spends_hash_not_null compact ->
  expand checksum compact !! i = Some (spent_result output spend).
Proof. apply expand_pairs_in_order_aux. Qed.

Lemma expand_pairs_in_order_witness :
  expand sample_checksum
    [sample_output; sample_spend; sample_output; sample_second_spend]
    !! 1%nat
  = Some (spent_result sample_output sample_second_spend).
Proof.
  apply (expand_pairs_in_order sample_checksum
           [sample_output; sample_spend; sample_output; sample_second_spend]
           1 sample_output 1 sample_second_spend).
  - reflexivity.
  - reflexivity.
  - reflexivity.
  - intros spend Hin _.
    repeat (apply elem_of_cons in Hin as [->|Hin];
            [vm_compute; discriminate|]).
    by apply elem_of_nil in Hin.
Defined.

(** X2.  Only the order of the Output rows among themselves and of the
    Spend rows among themselves matters to [expand]: the result and the
    state of the assertions are those of the list with all Output rows
    first and all Spend rows after them; rows of any other kind are
    ignored. *)
Theorem expand_ignores_interleaving (checksum : point.t -> N)
    (compact : list history_compact.t) :
  expand_checked checksum compact
  = expand_checked checksum
      (filter (fun row => history_compact.kind row = point_kind.output)
         compact
       ++ filter (fun row => history_compact.kind row = point_kind.spend)
            compact).
Proof.
  rewrite !expand_checked_filtered, !filter_app.
  rewrite !filter_filter_same.
  rewrite (filter_filter_disjoint
             (fun row => history_compact.kind row = point_kind.spend)
             (fun row => history_compact.kind row = point_kind.output))
    by (intros x ? ?; congruence).
  rewrite (filter_filter_disjoint
             (fun row => history_compact.kind row = point_kind.output)
             (fun row => history_compact.kind row = point_kind.spend))
    by (intros x ? ?; congruence).
  by rewrite app_nil_r.
Qed.

(** X3.  When no Spend row of the list asks for the checksum of an Output
    row of the list, [expand] returns every output unspent, spend = {null
    hash, max 32-bit index} and spend height = max 32-bit value, and
    evaluates no assertion. *)
Theorem expand_stray_spends (checksum : point.t -> N)
    (compact : list history_compact.t) :
  (forall spend output,
     spend ∈ compact -> output ∈ compact ->
     history_compact.kind spend = point_kind.spend ->
     history_compact.kind output = point_kind.output ->
     history_compact.previous_checksum spend
       <> checksum (history_compact.point output)) ->
  expand_checked checksum compact
  = (unspent_result <$>
       filter (fun row => history_compact.kind row = point_kind.output)
         compact, true).
Proof.
  intros Hstray. unfold expand_checked.
  rewrite collect_outputs_spec, reconcile_spends_no_match.
  - unfold spec_first_pass. rewrite <- list_fmap_compose. f_equal.
  - apply Forall_forall. intros spend Hspend Hkind.
    unfold spec_first_pass. apply Forall_fmap, Forall_forall.
    intros output Hout. apply list_elem_of_filter in Hout as [Hokind Hout].
    apply spend_matches_not_parked. intros [Hsum _]. simpl in Hsum.
    by apply (Hstray spend output Hspend Hout Hkind Hokind).
Qed.

Lemma expand_stray_spends_witness :
  expand_checked sample_checksum [sample_stray_spend; sample_output]
  = ([unspent_result sample_output], true).
Proof.
  apply (expand_stray_spends sample_checksum
           [sample_stray_spend; sample_output]).
  intros spend output Hs Ho Hks Hko.
  apply elem_of_cons in Hs as [->|Hs].
  - apply elem_of_cons in Ho as [->|Ho]; [discriminate|].
    apply elem_of_cons in Ho as [->|Ho]; [|by apply elem_of_nil in Ho].
    vm_compute. discriminate.
  - apply elem_of_cons in Hs as [->|Hs]; [discriminate|].
    by apply elem_of_nil in Hs.
Defined.

(** X4.  [expand] never gives one Spend row to two outputs: the result
    rows that carry a spend (a spend point whose hash is not null) are no
    more than the Spend rows of the list. *)
Theorem expand_spent_rows_bounded (checksum : point.t -> N)
    (compact : list history_compact.t) :
  (length (filter is_spent (expand checksum compact))
   <= length (filter
        (fun row => history_compact.kind row = point_kind.spend)
        compact))%nat.
Proof.
  rewrite expand_unfold, clear_checksum_spent_count.
  etrans; [apply reconcile_spends_spent_count|]. simpl.
  rewrite collect_outputs_spec. unfold spec_first_pass.
  by rewrite unspent_rows_spent_count.
Qed.

(** ** Stealth expansion *)

Lemma expand_stealth_row_inj row1 row2 :
  expand_stealth_row row1 = expand_stealth_row row2 -> row1 = row2.
Proof.
  destruct row1 as [e1 p1 t1], row2 as [e2 p2 t2].
  unfold expand_stealth_row, splice, to_array, reverse. simpl.
  intros [= He Hp Ht]. f_equal; [done| |done].
  apply (f_equal (@rev byte)) in Hp. by rewrite !rev_involutive in Hp.
Qed.

(** X5.  Stealth expansion loses nothing: lists of compact rows with the
    same expansion are the same list. *)
Theorem expand_stealth_injective (compact1 compact2 : list stealth_compact.t) :
  expand_stealth compact1 = expand_stealth compact2 -> compact1 = compact2.
Proof.
  rewrite !expand_stealth_fmap. revert compact2.
  induction compact1 as [|row1 compact1 IH]; intros [|row2 compact2];
    rewrite ?fmap_cons, ?fmap_nil; try done.
  intros Heq.
  assert (expand_stealth_row row1 = expand_stealth_row row2) as Hrow
    by (apply (inj Some); exact (f_equal head Heq)).
  assert (expand_stealth_row <$> compact1 = expand_stealth_row <$> compact2)
    as Hrest by exact (f_equal tail Heq).
  f_equal.
  - by apply expand_stealth_row_inj.
  - by apply IH.
Qed.

Lemma expand_stealth_injective_witness :
  let row :=
    stealth_compact.mk (replicate hash_size Byte.x11)
      (replicate short_hash_size Byte.x22) (replicate hash_size Byte.x33) in
  expand_stealth [row] = expand_stealth [row] /\ [row] = [row].
Proof.
  intros row. split; [reflexivity|].
  apply (expand_stealth_injective [row] [row]). reflexivity.
Defined.

(** X6.  For rows whose hashes have their wire widths, every expanded row
    has a 33-byte ephemeral public key that starts with the sign byte 02
    and a 20-byte public-key hash. *)
Theorem expand_stealth_widths (compact : list stealth_compact.t) :
  Forall well_formed_stealth_row compact ->
  Forall (fun row =>
            length (stealth.ephemeral_public_key row) = 33%nat
            /\ head (stealth.ephemeral_public_key row) = Some Byte.x02
            /\ length (stealth.public_key_hash row) = 20%nat
            /\ length (stealth.transaction_hash row) = 32%nat)
    (expand_stealth compact).
Proof.
  rewrite expand_stealth_fmap. intros Hwf. apply Forall_fmap.
  eapply Forall_impl; [exact Hwf|].
  intros [e p t] (He & Hp & Ht). simpl in *.
  unfold reverse. rewrite length_rev, He, Hp, Ht. done.
Qed.

Lemma expand_stealth_widths_witness :
  let row :=
    stealth_compact.mk (replicate hash_size Byte.x11)
      (replicate short_hash_size Byte.x22) (replicate hash_size Byte.x33) in
  Forall (fun row =>
            length (stealth.ephemeral_public_key row) = 33%nat
            /\ head (stealth.ephemeral_public_key row) = Some Byte.x02
            /\ length (stealth.public_key_hash row) = 20%nat
            /\ length (stealth.transaction_hash row) = 32%nat)
    (expand_stealth [row]).
Proof.
  intros row. apply (expand_stealth_widths [row]).
  apply Forall_cons. split; [|apply Forall_nil; done].
  repeat split; reflexivity.
Defined.

(** ** Response decoders on well-formed payloads *)

Lemma read_bytes_app n bytes rest :
  length bytes = n ->
  read_bytes n (reader.mk (bytes ++ rest) true) = (bytes, reader.mk rest true).
Proof.
  intros Hlen. unfold read_bytes. simpl.
  rewrite decide_True by (rewrite length_app; lia).
  by rewrite take_app_length', drop_app_length'.
Qed.

Lemma read_little_endian_app width n rest :
  n < 256 ^ N.of_nat width ->
  (bytes ← read_bytes width; mret (from_little_endian bytes))
    (reader.mk (to_little_endian width n ++ rest) true)
  = (n, reader.mk rest true).
Proof.
  intros Hn. unfold mbind, parse_bind, mret, parse_ret.
  rewrite read_bytes_app by apply to_little_endian_length.
  rewrite from_to_little_endian. by rewrite N.mod_small.
Qed.

Lemma read_4_bytes_app n rest :
  n <= max_uint32 ->
  read_4_bytes_little_endian
    (reader.mk (to_little_endian 4 n ++ rest) true)
  = (n, reader.mk rest true).
Proof.
  intros Hn. apply read_little_endian_app.
  unfold max_uint32 in Hn. simpl. lia.
Qed.

Lemma read_8_bytes_app n rest :
  n <= max_uint64 ->
  read_8_bytes_little_endian
    (reader.mk (to_little_endian 8 n ++ rest) true)
  = (n, reader.mk rest true).
Proof.
  intros Hn. apply read_little_endian_app.
  unfold max_uint64 in Hn. simpl. lia.
Qed.

Lemma point_from_data_app p rest :
  well_formed_point p ->
  point_from_data (reader.mk (point_bytes p ++ rest) true)
  = ((p, true), reader.mk rest true).
Proof.
  destruct p as [h i]. intros [Hh Hi]. simpl in Hh, Hi.
  unfold point_from_data, point_bytes, read_hash, mbind, parse_bind.
  cbn [point.hash point.index].
  rewrite <- app_assoc, read_bytes_app by done. cbv beta iota.
  rewrite read_4_bytes_app by done. reflexivity.
Qed.

Lemma validate_row_app index rest :
  index <= max_uint32 ->
  validate_row (reader.mk (to_little_endian 4 index ++ rest) true)
  = ((index, true), reader.mk rest true).
Proof.
  intros Hi. unfold validate_row, mbind, parse_bind.
  rewrite read_4_bytes_app by done. reflexivity.
Qed.

Lemma stealth_row_app row rest :
  well_formed_stealth_row row ->
  stealth_row (reader.mk (stealth_row_bytes row ++ rest) true)
  = ((row, true), reader.mk rest true).
Proof.
  destruct row as [e p t]. intros (He & Hp & Ht). simpl in He, Hp, Ht.
  unfold stealth_row, stealth_row_bytes, read_hash, read_short_hash,
    mbind, parse_bind.
  cbn [stealth_compact.ephemeral_public_key_hash
         stealth_compact.public_key_hash stealth_compact.transaction_hash].
  rewrite <- !app_assoc.
  rewrite read_bytes_app by done. cbv beta iota.
  rewrite read_bytes_app by done. cbv beta iota.
  rewrite read_bytes_app by done. reflexivity.
Qed.

Lemma history_row_app point_kind_of_byte row rest :
  well_formed_history_row row ->
  history_row point_kind_of_byte
    (reader.mk (history_row_bytes row ++ rest) true)
  = ((history_row_read point_kind_of_byte row, true), reader.mk rest true).
Proof.
  destruct row as [k p h v]. intros (Hp & Hh & Hv). simpl in Hp, Hh, Hv.
  unfold history_row, history_row_bytes, history_row_read, read_byte,
    mbind, parse_bind, mret, parse_ret.
  cbn [history_wire.kind history_wire.point history_wire.height
         history_wire.value].
  change ((k :: ?l) ++ rest) with ([k] ++ (l ++ rest)).
  rewrite (read_bytes_app 1 [k]) by done. cbv beta iota.
  rewrite <- !app_assoc, point_from_data_app by done. cbv beta iota.
  rewrite read_4_bytes_app by done. cbv beta iota.
  rewrite read_8_bytes_app by done. reflexivity.
Qed.

Lemma expanded_history_row_app row rest :
  well_formed_expanded_row row ->
  expanded_history_row
    (reader.mk (expanded_history_row_bytes row ++ rest) true)
  = ((row, true), reader.mk rest true).
Proof.
  destruct row as [o oh v s sh]. intros (Ho & Hoh & Hv & Hs & Hsh).
  simpl in Ho, Hoh, Hv, Hs, Hsh.
  unfold expanded_history_row, expanded_history_row_bytes,
    mbind, parse_bind.
  cbn [history.output history.output_height history.value history.spend
         history.spend_height].
  rewrite <- !app_assoc, point_from_data_app by done. cbv beta iota.
  rewrite read_8_bytes_app by done. cbv beta iota.
  rewrite read_8_bytes_app by done. cbv beta iota.
  rewrite point_from_data_app by done. cbv beta iota.
  rewrite read_8_bytes_app by done. reflexivity.
Qed.

(** The row loop on a payload made of whole rows, one after the other. *)
Lemma read_rows_concat {A B} failed_reader_is_exhausted
    (read_row : parse (B * bool)) (bytes : A -> list byte) (read : A -> B)
    (well_formed : A -> Prop) :
  (forall x rest, well_formed x ->
     read_row (reader.mk (bytes x ++ rest) true)
     = ((read x, true), reader.mk rest true)) ->
  (forall x, well_formed x -> bytes x <> []) ->
  forall xs fuel rows,
    Forall well_formed xs ->
    (length (concat (bytes <$> xs)) < fuel)%nat ->
    read_rows failed_reader_is_exhausted read_row fuel rows
      (reader.mk (concat (bytes <$> xs)) true)
    = Some (delivered (rows ++ (read <$> xs)), reader.mk [] true).
Proof.
  intros Hrow Hne. induction xs as [|x xs IH]; intros fuel rows Hwf Hfuel.
  - simpl. rewrite app_nil_r. by destruct fuel.
  - apply Forall_cons in Hwf as [Hx Hxs].
    rewrite fmap_cons in Hfuel |- *. simpl in Hfuel |- *.
    destruct fuel as [|fuel]; [lia|].
    cbn [read_rows]. unfold is_exhausted at 1. cbn [reader.valid fst].
    rewrite bool_decide_eq_false_2.
    2:{ intros Hnil. apply app_eq_nil in Hnil as [Hnil _].
        by apply (Hne x). }
    rewrite Hrow by done. simpl.
    rewrite IH; [by rewrite <- app_assoc|done|].
    rewrite length_app in Hfuel.
    assert (length (bytes x) <> 0)%nat.
    { intros Hz. apply (Hne x Hx). by apply length_zero_iff_nil. }
    lia.
Qed.

Lemma run_rows_concat {A B} failed_reader_is_exhausted
    (read_row : parse (B * bool)) (bytes : A -> list byte) (read : A -> B)
    (well_formed : A -> Prop) xs :
  (forall x rest, well_formed x ->
     read_row (reader.mk (bytes x ++ rest) true)
     = ((read x, true), reader.mk rest true)) ->
  (forall x, well_formed x -> bytes x <> []) ->
  Forall well_formed xs ->
  run_rows failed_reader_is_exhausted read_row
    (reader.of_payload (concat (bytes <$> xs)))
  = Some (delivered (read <$> xs), reader.mk [] true).
Proof.
  intros Hrow Hne Hwf. unfold run_rows, reader.of_payload.
  cbn [reader.remaining].
  by rewrite (read_rows_concat _ read_row bytes read well_formed Hrow Hne)
    by (done || lia).
Qed.

Lemma to_little_endian_not_nil width n :
  (0 < width)%nat -> to_little_endian width n <> [].
Proof. destruct width; [lia|done]. Qed.

Lemma from_little_endian_bound bytes :
  from_little_endian bytes < 256 ^ N.of_nat (length bytes).
Proof.
  induction bytes as [|b bytes IH]; [simpl; lia|].
  cbn [from_little_endian length].
  rewrite Nat2N.inj_succ, N.pow_succ_r'.
  pose proof (Byte.to_N_bounded b). lia.
Qed.

Lemma read_bytes_length n r : length (read_bytes n r).1 = n.
Proof.
  unfold read_bytes. destruct (reader.valid r); simpl.
  - case_decide; simpl.
    + rewrite length_take. lia.
    + rewrite length_app, length_replicate. lia.
  - apply length_replicate.
Qed.

Lemma read_4_bytes_bound r :
  (read_4_bytes_little_endian r).1 <= max_uint32.
Proof.
  unfold read_4_bytes_little_endian, mbind, parse_bind, mret, parse_ret.
  pose proof (read_bytes_length 4 r) as Hlen.
  destruct (read_bytes 4 r) as [bytes r']. simpl in *.
  pose proof (from_little_endian_bound bytes) as Hb. rewrite Hlen in Hb.
  unfold max_uint32. simpl in Hb. lia.
Qed.

(** X7.  [decode_height] hands the handler the height whose four
    little-endian bytes make up the payload, and leaves nothing unread. *)
Theorem decode_height_round_trip (failed_reader_is_exhausted : bool)
    (last_height : N) :
  last_height <= max_uint32 ->
  decode_height failed_reader_is_exhausted
    (reader.of_payload (to_little_endian 4 last_height))
  = (delivered last_height, reader.mk [] true).
Proof.
  intros Hh. unfold decode_height, reader.of_payload, mbind, parse_bind.
  rewrite <- (app_nil_r (to_little_endian 4 last_height)).
  rewrite read_4_bytes_app by done. reflexivity.
Qed.

Lemma decode_height_round_trip_witness :
  decode_height true (reader.of_payload (to_little_endian 4 400000))
  = (delivered 400000, reader.mk [] true).
Proof.
  apply (decode_height_round_trip true 400000). unfold max_uint32. lia.
Defined.

(** X8.  [decode_transaction_index] hands the handler the block height and
    the index whose little-endian bytes, four each, make up the payload. *)
Theorem decode_transaction_index_round_trip
    (failed_reader_is_exhausted : bool) (block_height index : N) :
  block_height <= max_uint32 ->
  index <= max_uint32 ->
  decode_transaction_index failed_reader_is_exhausted
    (reader.of_payload
       (to_little_endian 4 block_height ++ to_little_endian 4 index))
  = (delivered (block_height, index), reader.mk [] true).
Proof.
  intros Hh Hi.
  unfold decode_transaction_index, reader.of_payload, mbind, parse_bind.
  rewrite read_4_bytes_app by done. cbv beta iota.
  rewrite <- (app_nil_r (to_little_endian 4 index)).
  rewrite read_4_bytes_app by done. reflexivity.
Qed.

Lemma decode_transaction_index_round_trip_witness :
  decode_transaction_index true
    (reader.of_payload (to_little_endian 4 400000 ++ to_little_endian 4 17))
  = (delivered (400000, 17), reader.mk [] true).
Proof.
  apply (decode_transaction_index_round_trip true 400000 17);
    unfold max_uint32; lia.
Defined.

(** X9.  [decode_validate] hands the handler the list of indexes whose
    little-endian bytes, four each, follow one another in the payload, in
    order; the empty payload gives the empty list. *)
Theorem decode_validate_round_trip (failed_reader_is_exhausted : bool)
    (unconfirmed : list N) :
  Forall (fun index => index <= max_uint32) unconfirmed ->
  decode_validate failed_reader_is_exhausted
    (reader.of_payload (concat (to_little_endian 4 <$> unconfirmed)))
  = Some (delivered unconfirmed, reader.mk [] true).
Proof.
  intros Hwf. unfold decode_validate.
  rewrite (run_rows_concat _ validate_row (to_little_endian 4) id
             (fun index => index <= max_uint32)).
  - by rewrite list_fmap_id.
  - intros index rest Hi. by apply validate_row_app.
  - intros index _. apply to_little_endian_not_nil. lia.
  - done.
Qed.

Lemma decode_validate_round_trip_witness :
  decode_validate true
    (reader.of_payload (concat (to_little_endian 4 <$> [0; 3; 70000])))
  = Some (delivered [0; 3; 70000], reader.mk [] true).
Proof.
  apply (decode_validate_round_trip true [0; 3; 70000]).
  repeat (apply Forall_cons; split; [unfold max_uint32; lia|]).
  apply Forall_nil. done.
Defined.

(** X10.  [decode_stealth] hands the handler the expansion of the compact
    rows whose bytes (32-byte ephemeral-key hash, 20-byte public-key hash,
    32-byte transaction hash) follow one another in the payload. *)
Theorem decode_stealth_round_trip (failed_reader_is_exhausted : bool)
    (compact : list stealth_compact.t) :
  Forall well_formed_stealth_row compact ->
  decode_stealth failed_reader_is_exhausted
    (reader.of_payload (concat (stealth_row_bytes <$> compact)))
  = Some (delivered (expand_stealth compact), reader.mk [] true).
Proof.
  intros Hwf. unfold decode_stealth.
  rewrite (run_rows_concat _ stealth_row stealth_row_bytes id
             well_formed_stealth_row).
  - by rewrite list_fmap_id.
  - intros row rest Hrow. by apply stealth_row_app.
  - intros [e p t] (He & _). simpl in He. unfold stealth_row_bytes. simpl.
    destruct e; [discriminate He|done].
  - done.
Qed.

Lemma decode_stealth_round_trip_witness :
  let row :=
    stealth_compact.mk (replicate hash_size Byte.x11)
      (replicate short_hash_size Byte.x22) (replicate hash_size Byte.x33) in
  decode_stealth true
    (reader.of_payload (concat (stealth_row_bytes <$> [row; row])))
  = Some (delivered (expand_stealth [row; row]), reader.mk [] true).
Proof.
  intros row. apply (decode_stealth_round_trip true [row; row]).
  repeat (apply Forall_cons; split; [repeat split; reflexivity|]).
  apply Forall_nil. done.
Defined.

(** X11.  [decode_history] hands the handler [expand] of the compact rows
    whose bytes (kind byte, 32-byte hash and 4-byte index of the point,
    4-byte height, 8-byte value or checksum) follow one another in the
    payload. *)
Theorem decode_history_round_trip (failed_reader_is_exhausted : bool)
    (checksum : point.t -> N) (point_kind_of_byte : byte -> point_kind.t)
    (rows : list history_wire.t) :
  Forall well_formed_history_row rows ->
  decode_history failed_reader_is_exhausted checksum point_kind_of_byte
    (reader.of_payload (concat (history_row_bytes <$> rows)))
  = Some (delivered
            (expand checksum (history_row_read point_kind_of_byte <$> rows)),
          reader.mk [] true).
Proof.
  intros Hwf. unfold decode_history.
  rewrite (run_rows_concat _ (history_row point_kind_of_byte)
             history_row_bytes (history_row_read point_kind_of_byte)
             well_formed_history_row).
  - done.
  - intros row rest Hrow. by apply history_row_app.
  - done.
  - done.
Qed.

Lemma decode_history_round_trip_witness :
  let output :=
    history_wire.mk Byte.x00 (history_compact.point sample_output) 100 5000 in
  let spend :=
    history_wire.mk Byte.x01 (history_compact.point sample_spend) 120
      (sample_checksum (history_compact.point sample_output)) in
  decode_history true sample_checksum sample_point_kind
    (reader.of_payload (concat (history_row_bytes <$> [output; spend])))
  = Some (delivered [spent_result sample_output sample_spend],
          reader.mk [] true).
Proof.
  intros output spend.
  apply (decode_history_round_trip true sample_checksum sample_point_kind
           [output; spend]).
  repeat (apply Forall_cons; split;
          [repeat split; vm_compute; congruence|]).
  apply Forall_nil. done.
Defined.

(** X12.  [decode_expanded_history] hands the handler the rows whose bytes
    (output point, 8-byte output height, 8-byte value, spend point, 8-byte
    spend height) follow one another in the payload, as they are: no
    reconciliation takes place. *)
Theorem decode_expanded_history_round_trip
    (failed_reader_is_exhausted : bool) (expanded : list history.t) :
  Forall well_formed_expanded_row expanded ->
  decode_expanded_history failed_reader_is_exhausted
    (reader.of_payload (concat (expanded_history_row_bytes <$> expanded)))
  = Some (delivered expanded, reader.mk [] true).
Proof.
  intros Hwf. unfold decode_expanded_history.
  rewrite (run_rows_concat _ expanded_history_row
             expanded_history_row_bytes id well_formed_expanded_row).
  - by rewrite list_fmap_id.
  - intros row rest Hrow. by apply expanded_history_row_app.
  - intros [[h i] oh v s sh] ((Hh & _) & _). simpl in Hh.
    unfold expanded_history_row_bytes, point_bytes. simpl.
    destruct h; [discriminate Hh|done].
  - done.
Qed.

Lemma decode_expanded_history_round_trip_witness :
  decode_expanded_history true
    (reader.of_payload
       (concat (expanded_history_row_bytes <$>
                  [unspent_result sample_output])))
  = Some (delivered [unspent_result sample_output], reader.mk [] true).
Proof.
  apply (decode_expanded_history_round_trip true
           [unspent_result sample_output]).
  apply Forall_cons. split; [|apply Forall_nil; done].
  repeat split; vm_compute; congruence.
Defined.

(** X13.  A row decoder calls its handler exactly for the payloads that
    are a whole number of rows: 4 bytes a row for [decode_validate], 84 for
    [decode_stealth], 49 for [decode_history] and 96 for
    [decode_expanded_history]. *)
Theorem row_decoder_accepts_whole_rows (failed_reader_is_exhausted : bool)
    (checksum : point.t -> N) (point_kind_of_byte : byte -> point_kind.t)
    (transaction header : Type)
    (transaction_from_data : parse (transaction * bool))
    (header_from_data : parse (header * bool))
    (d : reply_decoder) (k : nat) (payload : data_chunk) :
  row_size d = Some k ->
  (exists x r',
     run_decoder failed_reader_is_exhausted checksum point_kind_of_byte
       transaction header transaction_from_data header_from_data d
       (reader.of_payload payload) = Some (delivered x, r'))
  <-> (length payload mod k)%nat = 0%nat.
Proof.
  intros Hd. split.
  - intros (x & r' & Hrun).
    destruct (decide ((length payload mod k)%nat = 0%nat)) as [|Hcut];
      [done|].
    destruct (run_decoder_cut_short failed_reader_is_exhausted checksum
                point_kind_of_byte transaction header transaction_from_data
                header_from_data d k payload Hd Hcut) as [r'' Hfail].
    congruence.
  - intros Hwhole.
    destruct (run_decoder_whole_rows failed_reader_is_exhausted checksum
                point_kind_of_byte transaction header transaction_from_data
                header_from_data d k payload Hd Hwhole) as [x Hrun].
    by exists x, (reader.mk [] true).
Qed.

Lemma row_decoder_accepts_whole_rows_witness :
  exists x r',
    run_decoder true sample_checksum sample_point_kind unit unit
      sample_from_data sample_from_data bind_decode_validate
      (reader.of_payload (replicate 8 Byte.x01)) = Some (delivered x, r').
Proof.
  apply (row_decoder_accepts_whole_rows true sample_checksum
           sample_point_kind unit unit sample_from_data sample_from_data
           bind_decode_validate 4 (replicate 8 Byte.x01)).
  - reflexivity.
  - reflexivity.
Defined.

(** ** Requests *)

(** X14.  The command of a request decides the decoder it is bound to:
    two calls of the proxy that send the same command bind the same
    decoder. *)
Theorem command_determines_decoder (transaction : Type)
    (to_data : transaction -> data_chunk)
    (f g : fetch transaction) (req1 req2 : request) :
  proxy_call transaction to_data f = sent req1 ->
  proxy_call transaction to_data g = sent req2 ->
  command req1 = command req2 ->
  decoder req1 = decoder req2.
Proof.
  destruct f, g; simpl;
    unfold blockchain_fetch_stealth, address_subscribe;
    repeat case_decide; intros Hf Hg;
    try discriminate Hf; try discriminate Hg;
    injection Hf as <-; injection Hg as <-; simpl;
    intros Hc; first [reflexivity | discriminate Hc].
Qed.

Lemma command_determines_decoder_witness :
  decoder (send_request "blockchain.fetch_block_header"
             (to_little_endian 4 7) bind_decode_block_header)
  = decoder (send_request "blockchain.fetch_block_header"
               (replicate hash_size Byte.x01) bind_decode_block_header).
Proof.
  apply (command_determines_decoder unit (fun _ => [])
           (call_blockchain_fetch_block_header unit 7)
           (call_blockchain_fetch_block_header_hash unit
              (replicate hash_size Byte.x01))).
  - reflexivity.
  - reflexivity.
  - reflexivity.
Defined.

(** X15.  A call of the proxy reports an error itself, without a request,
    exactly when it takes a prefix and the prefix is longer than 255 bits;
    the error is [bad_stream].  Every other call sends its request. *)
Theorem local_error_only_for_long_prefix (transaction : Type)
    (to_data : transaction -> data_chunk) (f : fetch transaction)
    (ec : error_code) :
  proxy_call transaction to_data f = on_error ec
  <-> ec = bad_stream
      /\ exists prefix, prefix_of transaction f = Some prefix
                        /\ max_uint8 < binary.size prefix.
Proof.
  split.
  - destruct ec.
    destruct f; simpl; try discriminate;
      unfold blockchain_fetch_stealth, address_subscribe;
      case_decide; try discriminate; intros _; by eauto.
  - intros (-> & prefix & Hprefix & Hsize).
    destruct f; simpl in Hprefix; try discriminate Hprefix;
      injection Hprefix as ->; simpl;
      unfold blockchain_fetch_stealth, address_subscribe;
      by rewrite decide_True.
Qed.

Lemma local_error_only_for_long_prefix_witness :
  proxy_call unit (fun _ => [])
    (call_address_subscribe unit subscribe_type.address
       (binary.mk 300 (replicate 38 Byte.xff)))
  = on_error bad_stream.
Proof.
  apply (proj2 (local_error_only_for_long_prefix unit (fun _ => [])
                  (call_address_subscribe unit subscribe_type.address
                     (binary.mk 300 (replicate 38 Byte.xff)))
                  bad_stream)).
  split; [reflexivity|]. eexists. split; [reflexivity|].
  unfold max_uint8. simpl. lia.
Defined.

(** ** Parse failures in the decoders that test the reader *)

(** X16.  Whatever [is_exhausted] answers on a failed reader, a decoder
    that tests the reader after reading (every decoder but [decode_height]
    and [decode_transaction_index]) returns [false] without calling its
    handler when a read has failed, given that [from_data] of a transaction
    or header reports success only with a valid reader. *)
Theorem tested_decoders_fail_on_parse_failure
    (failed_reader_is_exhausted : bool)
    (checksum : point.t -> N) (point_kind_of_byte : byte -> point_kind.t)
    (transaction header : Type)
    (transaction_from_data : parse (transaction * bool))
    (header_from_data : parse (header * bool))
    (d : reply_decoder) (r : reader.t)
    (o : outcome (reply transaction header)) (r' : reader.t) :
  success_is_valid transaction_from_data ->
  success_is_valid header_from_data ->
  tests_reader d = true ->
  reader.valid r = true ->
  run_decoder failed_reader_is_exhausted checksum point_kind_of_byte
    transaction header transaction_from_data header_from_data d r
  = Some (o, r') ->
  reader.valid r' = false ->
  o = decode_failed.
Proof. apply run_decoder_failure_tested. Qed.

Lemma tested_decoders_fail_on_parse_failure_witness :
  exists o r',
    run_decoder true sample_checksum sample_point_kind unit unit
      sample_from_data sample_from_data bind_decode_history
      (reader.of_payload (replicate 50 Byte.x01)) = Some (o, r')
    /\ reader.valid r' = false
    /\ o = decode_failed.
Proof.
  eexists _, _. split; [reflexivity|]. split; [reflexivity|].
  eapply (tested_decoders_fail_on_parse_failure true sample_checksum
            sample_point_kind unit unit sample_from_data sample_from_data
            bind_decode_history (reader.of_payload (replicate 50 Byte.x01))).
  - intros r Hr. exact Hr.
  - intros r Hr. exact Hr.
  - reflexivity.
  - reflexivity.
  - reflexivity.
  - reflexivity.
Defined.

(** ** The request of [address.fetch_history2] *)

Lemma run_decode_history_rows failed_reader_is_exhausted checksum
    point_kind_of_byte (transaction header : Type)
    (transaction_from_data : parse (transaction * bool))
    (header_from_data : parse (header * bool)) rows :
  Forall well_formed_history_row rows ->
  run_decoder failed_reader_is_exhausted checksum point_kind_of_byte
    transaction header transaction_from_data header_from_data
    bind_decode_history
    (reader.of_payload (concat (history_row_bytes <$> rows)))
  = Some (delivered
            (reply_history transaction header
               (expand checksum
                  (history_row_read point_kind_of_byte <$> rows))),
          reader.mk [] true).
Proof.
  intros Hwf. unfold run_decoder, decode_history.
  rewrite (run_rows_concat _ (history_row point_kind_of_byte)
             history_row_bytes (history_row_read point_kind_of_byte)
             well_formed_history_row).
  - done.
  - intros row rest Hrow. by apply history_row_app.
  - done.
  - done.
Qed.

(** C8.  The payload of [address.fetch_history2] is the version byte, the
    20-byte address hash in its own order, and the from-height as four
    little-endian bytes; the payload of [blockchain.fetch_history] for the
    same arguments has the same version byte and the same four bytes around
    the hash in reverse order, so the two differ in the order of the hash
    bytes only (01..14 against 14..01 for the sample address).  Both
    requests are bound to [decode_history]: on a reply made of compact rows
    the bound decoder hands [expand] of those rows to the handler. *)
Theorem address_fetch_history2_payload (address : payment_address.t)
    (from_height : N) :
  address_fetch_history2 address from_height
  = sent (send_request "address.fetch_history2"
            (payment_address.version address
               :: payment_address.hash address
               ++ to_little_endian 4 from_height)
            bind_decode_history)
  /\ blockchain_fetch_history address from_height
     = sent (send_request "blockchain.fetch_history"
               (payment_address.version address
                  :: rev (payment_address.hash address)
                  ++ to_little_endian 4 from_height)
               bind_decode_history)
  /\ address_fetch_history2 sample_address 100
     = sent (send_request "address.fetch_history2"
               [ Byte.x00;
                 Byte.x01; Byte.x02; Byte.x03; Byte.x04; Byte.x05;
                 Byte.x06; Byte.x07; Byte.x08; Byte.x09; Byte.x0a;
                 Byte.x0b; Byte.x0c; Byte.x0d; Byte.x0e; Byte.x0f;
                 Byte.x10; Byte.x11; Byte.x12; Byte.x13; Byte.x14;
                 Byte.x64; Byte.x00; Byte.x00; Byte.x00 ]
               bind_decode_history)
  /\ blockchain_fetch_history sample_address 100
     = sent (send_request "blockchain.fetch_history"
               [ Byte.x00;
                 Byte.x14; Byte.x13; Byte.x12; Byte.x11; Byte.x10;
                 Byte.x0f; Byte.x0e; Byte.x0d; Byte.x0c; Byte.x0b;
                 Byte.x0a; Byte.x09; Byte.x08; Byte.x07; Byte.x06;
                 Byte.x05; Byte.x04; Byte.x03; Byte.x02; Byte.x01;
                 Byte.x64; Byte.x00; Byte.x00; Byte.x00 ]
               bind_decode_history)
  /\ (forall failed_reader_is_exhausted checksum point_kind_of_byte
        (transaction header : Type)
        (transaction_from_data : parse (transaction * bool))
        (header_from_data : parse (header * bool)) rows c d,
        Forall well_formed_history_row rows ->
        c = address_fetch_history2 address from_height
        \/ c = blockchain_fetch_history address from_height ->
        bound_decoder c = Some d ->
        run_decoder failed_reader_is_exhausted checksum point_kind_of_byte
          transaction header transaction_from_data header_from_data d
          (reader.of_payload (concat (history_row_bytes <$> rows)))
        = Some (delivered
                  (reply_history transaction header
                     (expand checksum
                        (history_row_read point_kind_of_byte <$> rows))),
                reader.mk [] true)).
Proof.
  split.
  { unfold address_fetch_history2, build_chunk, to_array. simpl.
    by rewrite ?app_nil_r. }
  split.
  { unfold blockchain_fetch_history, build_chunk, to_array, reverse. simpl.
    by rewrite ?app_nil_r. }
  split; [reflexivity|]. split; [reflexivity|].
  intros p checksum kob tx hd txd hdd rows c d Hwf Hc Hd.
  assert (d = bind_decode_history) as ->.
  { destruct Hc as [-> | ->]; simpl in Hd; congruence. }
  by apply run_decode_history_rows.
Qed.

Lemma address_fetch_history2_payload_witness :
  let output :=
    history_wire.mk Byte.x00 (history_compact.point sample_output) 100 5000 in
  let spend :=
    history_wire.mk Byte.x01 (history_compact.point sample_spend) 120
      (sample_checksum (history_compact.point sample_output)) in
  Forall well_formed_history_row [output; spend]
  /\ bound_decoder (address_fetch_history2 sample_address 100)
     = Some bind_decode_history
  /\ run_decoder true sample_checksum sample_point_kind unit unit
       sample_from_data sample_from_data bind_decode_history
       (reader.of_payload (concat (history_row_bytes <$> [output; spend])))
     = Some (delivered
               (reply_history unit unit
                  [spent_result sample_output sample_spend]),
             reader.mk [] true).
Proof.
  intros output spend.
  assert (Forall well_formed_history_row [output; spend]) as Hwf.
  { repeat (apply Forall_cons; split;
            [repeat split; vm_compute; congruence|]).
    apply Forall_nil. done. }
  split; [exact Hwf|]. split; [reflexivity|].
  exact (proj2 (proj2 (proj2 (proj2
           (address_fetch_history2_payload sample_address 100))))
           true sample_checksum sample_point_kind unit unit
           sample_from_data sample_from_data [output; spend]
           (address_fetch_history2 sample_address 100) bind_decode_history
           Hwf (or_introl eq_refl) eq_refl).
Defined.
